(** * ApiKeyManager: rotation of several API keys

    A shallow embedding of [packages/core/src/core/apiKeyManager.ts]
    (class [ApiKeyManager] and the module-level accessors
    [initializeApiKeyManager] / [getApiKeyManager] / [hasMultipleApiKeys]),
    followed by the properties the specification states about it.

    Conventions of the embedding:
    - a JavaScript string is the list of its UTF-16 code units;
    - a JavaScript number that the class uses as a counter, an index or a
      length is a [Z];
    - an object of the [apiKeys] array is identified by its position in
      that array (the array is built once by [parseApiKeys] and never
      re-ordered, so positions are object identities); an array of object
      references, such as the result of [getActiveKeys], is a list of
      positions paired with the fields read through them;
    - a method is a function from the receiver's state to an outcome
      (returned value or thrown exception) and the receiver's state after
      the call;
    - [new Date()] and [Math.random()] are inputs of the methods that
      call them. *)

From Stdlib Require Import ZArith QArith Qround Lia Ascii String DecimalString Sorted.
From stdpp Require Import base list.

Open Scope Z_scope.

(** ** JavaScript strings *)

Definition code_unit := N.
Definition jsstring := list code_unit.

(** A literal of the source, as code units. *)
Definition js (s : string) : jsstring :=
  List.map N_of_ascii (list_ascii_of_string s).

(** Exceptions the embedded code can raise. [Error] carries the message
    given to [new Error(...)]; [TypeError] is a property read on
    [undefined]; [RangeError] is [String.prototype.repeat] with a
    negative count. *)
Inductive exn : Type :=
| Error (message : string)
| TypeError
| RangeError.

Inductive outcome (A : Type) : Type :=
| Return (a : A)
| Throw (e : exn).
Arguments Return {A} a.
Arguments Throw {A} e.

(** [s.length] *)
Definition jslength (s : jsstring) : Z := Z.of_nat (length s).

(** [s.substring(start, end)]: both bounds are clamped to [0, s.length]
    and swapped when out of order; an omitted [end] is [s.length]. *)
Definition clamp (len i : Z) : Z := Z.min (Z.max i 0) len.

Definition substring (s : jsstring) (start : Z) (end_ : option Z) : jsstring :=
  let len := jslength s in
  let finalStart := clamp len start in
  let finalEnd := clamp len (match end_ with Some e => e | None => len end) in
  let from := Z.min finalStart finalEnd in
  let to := Z.max finalStart finalEnd in
  take (Z.to_nat (to - from)) (drop (Z.to_nat from) s).

(** [s.repeat(count)] *)
Definition jsrepeat (s : jsstring) (count : Z) : outcome jsstring :=
  if count <? 0 then Throw RangeError
  else Return (List.concat (List.repeat s (Z.to_nat count))).

(** ECMAScript WhiteSpace and LineTerminator code points, the ones
    [String.prototype.trim] strips. *)
Definition is_whitespace (c : code_unit) : bool :=
  ((c =? 0x09) || (c =? 0x0A) || (c =? 0x0B) || (c =? 0x0C) || (c =? 0x0D)
   || (c =? 0x20) || (c =? 0xA0) || (c =? 0x1680)
   || ((0x2000 <=? c) && (c <=? 0x200A))
   || (c =? 0x2028) || (c =? 0x2029) || (c =? 0x202F) || (c =? 0x205F)
   || (c =? 0x3000) || (c =? 0xFEFF))%N.

Fixpoint trimStart (s : jsstring) : jsstring :=
  match s with
  | c :: s' => if is_whitespace c then trimStart s' else s
  | [] => []
  end.

Definition trimEnd (s : jsstring) : jsstring := rev (trimStart (rev s)).

(** [s.trim()] *)
Definition trim (s : jsstring) : jsstring := trimEnd (trimStart s).

(** [s.split(sep)] for a one-code-unit separator: the pieces between
    consecutive separators, empty pieces included; the empty string
    splits into one empty piece. *)
Fixpoint split (sep : code_unit) (s : jsstring) : list jsstring :=
  match s with
  | [] => [[]]
  | c :: s' =>
      if (c =? sep)%N then [] :: split sep s'
      else match split sep s' with
           | piece :: pieces => (c :: piece) :: pieces
           | [] => [[c]]
           end
  end.

Definition semicolon : code_unit := N_of_ascii ";".
Definition star : jsstring := js "*".

(** ** maskApiKey *)

(** [maskApiKey(apiKey)]: keys of at most 12 code units are replaced by
    stars; longer ones keep their first 8 and last 4 code units. *)
Definition maskApiKey (apiKey : jsstring) : outcome jsstring :=
  if jslength apiKey <=? 12 then jsrepeat star (jslength apiKey)
  else
    match jsrepeat star (jslength apiKey - 12) with
    | Return stars =>
        Return (substring apiKey 0 (Some 8) ++ stars
                ++ substring apiKey (jslength apiKey - 4) None)
    | Throw e => Throw e
    end.

(** ** The data model *)

(** [Date]: milliseconds since the epoch. *)
Definition Date := Z.

Record ApiKeyInfo : Type := mkApiKeyInfo {
  key : jsstring;
  index : Z;
  isActive : bool;
  errorCount : Z;
  lastUsed : option Date;
  lastError : option jsstring;
}.

Inductive RotationStrategy : Type :=
| round_robin
| least_errors
| random.

Record ApiKeyManagerConfig : Type := mkConfig {
  rotationStrategy : RotationStrategy;
  maxErrorsPerKey : Z;
  cooldownPeriod : Z;
}.

(** [Partial<ApiKeyManagerConfig>]: every property may be missing. *)
Record PartialConfig : Type := mkPartialConfig {
  rotationStrategy_opt : option RotationStrategy;
  maxErrorsPerKey_opt : option Z;
  cooldownPeriod_opt : option Z;
}.

Definition emptyConfig : PartialConfig := mkPartialConfig None None None.

(** The private fields of an [ApiKeyManager] instance. *)
Record ApiKeyManager : Type := mkApiKeyManager {
  apiKeys : list ApiKeyInfo;
  currentIndex : Z;
  config : ApiKeyManagerConfig;
}.

(** Field assignments on one object. *)
Definition set_isActive (b : bool) (k : ApiKeyInfo) : ApiKeyInfo :=
  mkApiKeyInfo (key k) (index k) b (errorCount k) (lastUsed k) (lastError k).
Definition set_errorCount (n : Z) (k : ApiKeyInfo) : ApiKeyInfo :=
  mkApiKeyInfo (key k) (index k) (isActive k) n (lastUsed k) (lastError k).
Definition set_lastUsed (d : option Date) (k : ApiKeyInfo) : ApiKeyInfo :=
  mkApiKeyInfo (key k) (index k) (isActive k) (errorCount k) d (lastError k).
Definition set_lastError (e : option jsstring) (k : ApiKeyInfo) : ApiKeyInfo :=
  mkApiKeyInfo (key k) (index k) (isActive k) (errorCount k) (lastUsed k) e.

(** Field assignments on [this]. *)
Definition set_apiKeys (l : list ApiKeyInfo) (m : ApiKeyManager) : ApiKeyManager :=
  mkApiKeyManager l (currentIndex m) (config m).
Definition set_currentIndex (i : Z) (m : ApiKeyManager) : ApiKeyManager :=
  mkApiKeyManager (apiKeys m) i (config m).

(** ** Methods as state transformers *)

Definition method (A : Type) : Type := ApiKeyManager -> outcome A * ApiKeyManager.

Definition ret {A} (a : A) : method A := fun this => (Return a, this).
Definition throw {A} (e : exn) : method A := fun this => (Throw e, this).
Definition bind {A B} (c : method A) (k : A -> method B) : method B :=
  fun this =>
    match c this with
    | (Return a, this') => k a this'
    | (Throw e, this') => (Throw e, this')
    end.
Definition read {A} (f : ApiKeyManager -> A) : method A := fun this => (Return (f this), this).
Definition assign (f : ApiKeyManager -> ApiKeyManager) : method unit :=
  fun this => (Return tt, f this).

Declare Scope method_scope.
Delimit Scope method_scope with method.
Notation "x <- c ;; k" := (bind c (fun x => k))
  (at level 100, c at next level, right associativity) : method_scope.
Notation "c ;;; k" := (bind c (fun _ => k))
  (at level 100, right associativity) : method_scope.

(** An object reference: the position of the object in [this.apiKeys]
    together with its fields at the time the reference is read. *)
Abbreviation objref := (nat * ApiKeyInfo)%type.

Fixpoint enumerate_from (r : nat) (l : list ApiKeyInfo) : list objref :=
  match l with
  | [] => []
  | k :: l' => (r, k) :: enumerate_from (S r) l'
  end.

(** The elements of [this.apiKeys], as references. *)
Definition objects (this : ApiKeyManager) : list objref :=
  enumerate_from 0 (apiKeys this).

(** [ref.field = ...] for a reference into [this.apiKeys]. *)
Definition update (r : objref) (f : ApiKeyInfo -> ApiKeyInfo) : method unit :=
  assign (fun this => set_apiKeys (alter f (fst r) (apiKeys this)) this).

(** [arr[i]] for a numeric [i]; [None] is [undefined]. *)
Definition at_index {A} (arr : list A) (i : Z) : option A :=
  if i <? 0 then None else arr !! Z.to_nat i.

(** [arr.findIndex(p)] *)
Fixpoint findIndex_from {A} (p : A -> bool) (i : Z) (arr : list A) : Z :=
  match arr with
  | [] => -1
  | x :: arr' => if p x then i else findIndex_from p (i + 1) arr'
  end.
Definition findIndex {A} (p : A -> bool) (arr : list A) : Z := findIndex_from p 0 arr.

(** [a % b] on integers: the remainder has the sign of the dividend. *)
Definition jsmod (a b : Z) : Z := Z.rem a b.

(** [arr.sort(cmp)] on a copy: a stable sort (ECMAScript 2019), here by
    insertion; [cmp a b <= 0] keeps [a] before [b]. *)
Fixpoint insert_sorted {A} (cmp : A -> A -> Z) (x : A) (l : list A) : list A :=
  match l with
  | [] => [x]
  | y :: l' => if cmp x y <=? 0 then x :: y :: l' else y :: insert_sorted cmp x l'
  end.

Fixpoint sort {A} (cmp : A -> A -> Z) (l : list A) : list A :=
  match l with
  | [] => []
  | x :: l' => insert_sorted cmp x (sort cmp l')
  end.

(** ** The class *)

(** [private getActiveKeys()] *)
Definition getActiveKeys (this : ApiKeyManager) : list objref :=
  List.filter (fun k => isActive (snd k)) (objects this).

(** [activeKeys.find(k => k.index === this.currentIndex) || activeKeys[0]] *)
Definition find_current_or_first (this : ApiKeyManager) (activeKeys : list objref)
  : option objref :=
  match List.find (fun k => index (snd k) =? currentIndex this) activeKeys with
  | Some k => Some k
  | None => at_index activeKeys 0
  end.

(** [!s] and [s === ''] for a string [s] *)
Definition falsy (s : jsstring) : bool :=
  match s with [] => true | _ :: _ => false end.
Definition is_empty_string (s : jsstring) : bool :=
  match s with [] => true | _ :: _ => false end.

(** [private parseApiKeys(apiKeysString)] *)
Definition parseApiKeys (apiKeysString : jsstring) : method unit :=
  if falsy apiKeysString || is_empty_string (trim apiKeysString)
  then throw (Error "No API keys provided")
  else
    let keys :=
      List.filter (fun key => jslength key >? 0)
        (List.map (fun key => trim key) (split semicolon apiKeysString)) in
    if Z.of_nat (length keys) =? 0
    then throw (Error "No valid API keys found after parsing")
    else
      assign (set_apiKeys
                (imap (fun index key => mkApiKeyInfo key (Z.of_nat index) true 0 None None)
                   keys)).

(** The defaults of the constructor, overridden by the properties that
    [config] has. *)
Definition merge_config (c : PartialConfig) : ApiKeyManagerConfig :=
  mkConfig
    (default round_robin (rotationStrategy_opt c))
    (default 3 (maxErrorsPerKey_opt c))
    (default 60000 (cooldownPeriod_opt c)).

(** [new ApiKeyManager(apiKeysString, config)]: the field initialisers,
    then the constructor body; the object is the result only when the
    body returns. *)
Definition constructor (apiKeysString : jsstring) (config : PartialConfig)
  : outcome ApiKeyManager :=
  let this := mkApiKeyManager [] 0 (merge_config config) in
  match parseApiKeys apiKeysString this with
  | (Return _, this') => Return this'
  | (Throw e, _) => Throw e
  end.

(** [getCurrentApiKey()]; [now] is the value of [new Date()]. *)
Definition getCurrentApiKey (now : Date) : method jsstring :=
  (activeKeys <- read getActiveKeys ;;
   if Z.of_nat (length activeKeys) =? 0
   then throw (Error "No active API keys available")
   else
     currentKey <- read (fun this => find_current_or_first this activeKeys) ;;
     match currentKey with
     | Some currentKey =>
         update currentKey (set_lastUsed (Some now)) ;;;
         ret (key (snd currentKey))
     | None => throw TypeError
     end)%method.

(** [getCurrentApiKeyInfo()]: the object itself is returned. *)
Definition getCurrentApiKeyInfo : method objref :=
  (activeKeys <- read getActiveKeys ;;
   if Z.of_nat (length activeKeys) =? 0
   then throw (Error "No active API keys available")
   else
     currentKey <- read (fun this => find_current_or_first this activeKeys) ;;
     match currentKey with
     | Some currentKey => ret currentKey
     | None => throw TypeError
     end)%method.

(** [this.currentIndex = arr[i].index] *)
Definition set_currentIndex_from (arr : list objref) (i : Z) : method unit :=
  match at_index arr i with
  | Some k => assign (set_currentIndex (index (snd k)))
  | None => throw TypeError
  end.

(** [private rotateRoundRobin(activeKeys)] *)
Definition rotateRoundRobin (activeKeys : list objref) : method unit :=
  (currentActiveIndex <-
     read (fun this => findIndex (fun k => index (snd k) =? currentIndex this) activeKeys) ;;
   let nextActiveIndex := jsmod (currentActiveIndex + 1) (Z.of_nat (length activeKeys)) in
   set_currentIndex_from activeKeys nextActiveIndex)%method.

(** [private rotateLeastErrors(activeKeys)] *)
Definition rotateLeastErrors (activeKeys : list objref) : method unit :=
  let sortedKeys :=
    sort (fun a b => errorCount (snd a) - errorCount (snd b)) activeKeys in
  set_currentIndex_from sortedKeys 0.

(** [private rotateRandom(activeKeys)]; [u] is the value of
    [Math.random()], taken as an exact rational. *)
Definition rotateRandom (u : Q) (activeKeys : list objref) : method unit :=
  let randomIndex := Qfloor (u * inject_Z (Z.of_nat (length activeKeys)))%Q in
  set_currentIndex_from activeKeys randomIndex.

(** The [switch (this.config.rotationStrategy)] of [rotateApiKey]. *)
Definition rotation_switch (u : Q) (activeKeys : list objref) : method unit :=
  (strategy <- read (fun this => rotationStrategy (config this)) ;;
   match strategy with
   | round_robin => rotateRoundRobin activeKeys
   | least_errors => rotateLeastErrors activeKeys
   | random => rotateRandom u activeKeys
   end)%method.

(** [rotateApiKey()] *)
Definition rotateApiKey (now : Date) (u : Q) : method jsstring :=
  (activeKeys <- read getActiveKeys ;;
   if Z.of_nat (length activeKeys) =? 0
   then throw (Error "No active API keys available for rotation")
   else
     rotation_switch u activeKeys ;;;
     getCurrentApiKey now)%method.

(** [reportError(error)]; the [console.warn] of the deactivation branch
    writes to the console only and is left out. *)
Definition reportError (error : jsstring) : method unit :=
  (currentKey <-
     read (fun this => List.find (fun k => index (snd k) =? currentIndex this) (objects this)) ;;
   match currentKey with
   | Some currentKey =>
       let errorCount' := errorCount (snd currentKey) + 1 in
       update currentKey (set_errorCount errorCount') ;;;
       update currentKey (set_lastError (Some error)) ;;;
       max <- read (fun this => maxErrorsPerKey (config this)) ;;
       if errorCount' >=? max
       then update currentKey (set_isActive false)
       else ret tt
   | None => ret tt
   end)%method.

(** [getAllApiKeysStatus()]: a fresh copy of every object. *)
Definition getAllApiKeysStatus : method (list ApiKeyInfo) :=
  read (fun this => List.map (fun key => key) (apiKeys this)).

(** [getActiveKeyCount()] *)
Definition getActiveKeyCount : method Z :=
  read (fun this => Z.of_nat (length (getActiveKeys this))).

(** [getTotalKeyCount()] *)
Definition getTotalKeyCount : method Z :=
  read (fun this => Z.of_nat (length (apiKeys this))).

(** [resetErrorCounts()] *)
Definition resetErrorCounts : method unit :=
  assign (fun this =>
    set_apiKeys
      (List.map (fun key => set_lastError None (set_isActive true (set_errorCount 0 key)))
         (apiKeys this))
      this).

(** ** The module-level instance *)

(** The state of the module: [let globalApiKeyManager]. *)
Definition module_state : Type := option ApiKeyManager.

Definition initial_module_state : module_state := None.

(** [initializeApiKeyManager(apiKeysString, config?)]: the assignment
    happens only when [new] returns. *)
Definition initializeApiKeyManager (apiKeysString : jsstring) (config : option PartialConfig)
    (globalApiKeyManager : module_state) : outcome ApiKeyManager * module_state :=
  match constructor apiKeysString (default emptyConfig config) with
  | Return manager => (Return manager, Some manager)
  | Throw e => (Throw e, globalApiKeyManager)
  end.

(** [getApiKeyManager()] *)
Definition getApiKeyManager (globalApiKeyManager : module_state) : option ApiKeyManager :=
  globalApiKeyManager.

(** [hasMultipleApiKeys()] *)
Definition hasMultipleApiKeys (globalApiKeyManager : module_state) : bool :=
  match globalApiKeyManager with
  | Some manager =>
      match fst (getTotalKeyCount manager) with
      | Return n => n >? 1
      | Throw _ => false
      end
  | None => false
  end.

(** ** The companion validator ([packages/cli/src/config/auth.ts]) *)

(** The object [parseAndValidateApiKeys] returns. *)
Record validation : Type := mkValidation {
  isValid : bool;
  keyCount : Z;
  error : option string;
}.

(** [parseAndValidateApiKeys(apiKeysString)] *)
Definition parseAndValidateApiKeys (apiKeysString : jsstring) : validation :=
  if falsy apiKeysString || is_empty_string (trim apiKeysString)
  then mkValidation false 0 (Some "No API keys provided"%string)
  else
    let keys :=
      List.filter (fun key => jslength key >? 0)
        (List.map (fun key => trim key) (split semicolon apiKeysString)) in
    if Z.of_nat (length keys) =? 0
    then mkValidation false 0 (Some "No valid API keys found after parsing"%string)
    else
      let invalidKeys := List.filter (fun key => jslength key <? 8) keys in
      if Z.of_nat (length invalidKeys) >? 0
      then
        mkValidation false (Z.of_nat (length keys))
          (Some (NilZero.string_of_int (Z.to_int (Z.of_nat (length invalidKeys)))
                 ++ " API key(s) appear to be invalid (should be at least 8 characters)")%string)
      else mkValidation true (Z.of_nat (length keys)) None.

(** ** The authentication check ([validateAuthMethod] of auth.ts) *)

(** [enum AuthType] of contentGenerator.ts and the string each member is. *)
Inductive AuthType : Type :=
| LOGIN_WITH_GOOGLE
| USE_GEMINI
| USE_VERTEX_AI
| CLOUD_SHELL.

Definition AuthType_value (a : AuthType) : jsstring :=
  match a with
  | LOGIN_WITH_GOOGLE => js "oauth-personal"
  | USE_GEMINI => js "gemini-api-key"
  | USE_VERTEX_AI => js "vertex-ai"
  | CLOUD_SHELL => js "cloud-shell"
  end.

(** [a === b] on strings *)
Fixpoint strict_equal (a b : jsstring) : bool :=
  match a, b with
  | [], [] => true
  | x :: a', y :: b' => (x =? y)%N && strict_equal a' b'
  | _, _ => false
  end.

(** The four variables of [process.env] the code reads; [None] is an
    unset variable. *)
Record ProcessEnv : Type := mkProcessEnv {
  GEMINI_API_KEY : option jsstring;
  GOOGLE_API_KEY : option jsstring;
  GOOGLE_CLOUD_PROJECT : option jsstring;
  GOOGLE_CLOUD_LOCATION : option jsstring;
}.

(** [!!v] for a value that is a string or [undefined] *)
Definition truthy (v : option jsstring) : bool :=
  match v with
  | Some (_ :: _) => true
  | Some [] | None => false
  end.

Definition newline : string := String (ascii_of_nat 10) EmptyString.

Module Auth.
Section WithEngine.

(** The [message] of an exception; the text of the engine's own
    exceptions is the engine's business. *)
Variable engine_message : exn -> string.

Definition message_of (e : exn) : string :=
  match e with
  | Error message => message
  | TypeError | RangeError => engine_message e
  end.

(** [validateAuthMethod(authMethod)]; [env] is [process.env] as
    [loadEnvironment()] leaves it, [globalApiKeyManager] the instance
    stored in apiKeyManager.ts.  The [console.log] of the success branch
    is left out. *)
Definition validateAuthMethod (env : ProcessEnv) (authMethod : jsstring)
    (globalApiKeyManager : module_state) : option string * module_state :=
  if strict_equal authMethod (AuthType_value LOGIN_WITH_GOOGLE)
     || strict_equal authMethod (AuthType_value CLOUD_SHELL)
  then (None, globalApiKeyManager)
  else if strict_equal authMethod (AuthType_value USE_GEMINI)
  then
    match GEMINI_API_KEY env with
    | Some (c :: rest) =>
        let validation := parseAndValidateApiKeys (c :: rest) in
        if negb (isValid validation)
        then (Some ("Invalid GEMINI_API_KEY format: "
                    ++ match error validation with
                       | Some message => message
                       | None => "undefined"
                       end)%string,
              globalApiKeyManager)
        else if keyCount validation >? 1
        then
          match initializeApiKeyManager (c :: rest) None globalApiKeyManager with
          | (Return _, globalApiKeyManager') => (None, globalApiKeyManager')
          | (Throw e, globalApiKeyManager') =>
              (Some ("Failed to initialize API key manager: " ++ message_of e)%string,
               globalApiKeyManager')
          end
        else (None, globalApiKeyManager)
    | Some [] | None =>
        (Some "GEMINI_API_KEY environment variable not found. Add that to your environment and try again (no reload needed if using .env)!"%string,
         globalApiKeyManager)
    end
  else if strict_equal authMethod (AuthType_value USE_VERTEX_AI)
  then
    let hasVertexProjectLocationConfig :=
      truthy (GOOGLE_CLOUD_PROJECT env) && truthy (GOOGLE_CLOUD_LOCATION env) in
    let hasGoogleApiKey := truthy (GOOGLE_API_KEY env) in
    if negb hasVertexProjectLocationConfig && negb hasGoogleApiKey
    then
      (Some ("When using Vertex AI, you must specify either:" ++ newline
             ++ "• GOOGLE_CLOUD_PROJECT and GOOGLE_CLOUD_LOCATION environment variables."
             ++ newline
             ++ "• GOOGLE_API_KEY environment variable (if using express mode)."
             ++ newline
             ++ "Update your environment and try again (no reload needed if using .env)!")%string,
       globalApiKeyManager)
    else (None, globalApiKeyManager)
  else (Some "Invalid auth method selected."%string, globalApiKeyManager).

End WithEngine.
End Auth.

(** ** The module-level functions of contentGenerator.ts *)

(** [String(n)] for an integer [n] (of magnitude below 10^21) *)
Definition number_to_string (n : Z) : jsstring :=
  js (NilZero.string_of_int (Z.to_int n)).

Module ContentGenerator.

(** The state the functions share: the instance stored in apiKeyManager.ts
    and [let globalApiKeyRotated]. *)
Record state : Type := mkState {
  apiKeyManager : module_state;
  globalApiKeyRotated : bool;
}.

Definition with_manager (m : ApiKeyManager) (s : state) : state :=
  mkState (Some m) (globalApiKeyRotated s).

(** [type ContentGeneratorConfig] *)
Record ContentGeneratorConfig : Type := mkContentGeneratorConfig {
  model : jsstring;
  apiKey : option jsstring;
  vertexai : option bool;
  authType : option AuthType;
}.

(** [v || undefined] for a string or [undefined] *)
Definition or_undefined (v : option jsstring) : option jsstring :=
  if truthy v then v else None.

Section WithModels.

(** [DEFAULT_GEMINI_MODEL] of config/models.ts and what the promise of
    [getEffectiveModel(apiKey, model)] of modelCheck.ts settles to. *)
Variable DEFAULT_GEMINI_MODEL : jsstring.
Variable getEffectiveModel : jsstring -> jsstring -> outcome jsstring.

(** [createContentGeneratorConfig(model, authType)]: the outcome is what
    the returned promise settles to; [env] is [process.env], [now] the
    value of [new Date()] should the manager be asked for its key. *)
Definition createContentGeneratorConfig (env : ProcessEnv) (now : Date)
    (model : option jsstring) (authType : option AuthType) (s : state)
  : outcome ContentGeneratorConfig * state :=
  let geminiApiKey := or_undefined (GEMINI_API_KEY env) in
  let googleApiKey := or_undefined (GOOGLE_API_KEY env) in
  let googleCloudProject := or_undefined (GOOGLE_CLOUD_PROJECT env) in
  let googleCloudLocation := or_undefined (GOOGLE_CLOUD_LOCATION env) in
  let effectiveModel := if truthy model then default [] model else DEFAULT_GEMINI_MODEL in
  let contentGeneratorConfig := mkContentGeneratorConfig effectiveModel None None authType in
  match authType with
  | Some LOGIN_WITH_GOOGLE | Some CLOUD_SHELL => (Return contentGeneratorConfig, s)
  | Some USE_GEMINI =>
      match geminiApiKey with
      | Some geminiApiKey =>
          let with_key (key : jsstring) (s' : state) :=
            match getEffectiveModel key effectiveModel with
            | Return model' =>
                (Return (mkContentGeneratorConfig model' (Some key) (Some false) authType), s')
            | Throw e => (Throw e, s')
            end in
          match getApiKeyManager (apiKeyManager s) with
          | Some manager =>
              match getCurrentApiKey now manager with
              | (Return key, manager') => with_key key (with_manager manager' s)
              | (Throw e, manager') => (Throw e, with_manager manager' s)
              end
          | None => with_key geminiApiKey s
          end
      | None => (Return contentGeneratorConfig, s)
      end
  | Some USE_VERTEX_AI =>
      if truthy googleApiKey || (truthy googleCloudProject && truthy googleCloudLocation)
      then (Return (mkContentGeneratorConfig effectiveModel googleApiKey (Some true) authType), s)
      else (Return contentGeneratorConfig, s)
  | None => (Return contentGeneratorConfig, s)
  end.

End WithModels.

(** What [rotateApiKey()] returns. *)
Record rotation : Type := mkRotation {
  rotated : bool;
  currentKey : option jsstring;
  keyInfo : option jsstring;
}.

Definition not_rotated : rotation := mkRotation false None None.

(** The template [`API ${index + 1}/${total} (${masked})`] *)
Definition describe (index total : Z) (masked : jsstring) : jsstring :=
  js "API " ++ number_to_string (index + 1) ++ js "/" ++ number_to_string total
  ++ js " (" ++ masked ++ js ")".

(** The [try] block of [rotateApiKey()]: its outcome, the manager and
    the flag after it. *)
Definition rotateApiKey_try (now : Date) (u : Q) (manager : ApiKeyManager) (flag : bool)
  : outcome rotation * (ApiKeyManager * bool) :=
  match rotateApiKey now u manager with
  | (Throw e, manager1) => (Throw e, (manager1, flag))
  | (Return newKey, manager1) =>
      match getCurrentApiKeyInfo manager1 with
      | (Throw e, manager2) => (Throw e, (manager2, flag))
      | (Return keyInfo, manager2) =>
          let flag' := true in
          match getTotalKeyCount manager2 with
          | (Throw e, manager3) => (Throw e, (manager3, flag'))
          | (Return total, manager3) =>
              match maskApiKey newKey with
              | Throw e => (Throw e, (manager3, flag'))
              | Return masked =>
                  (Return (mkRotation true (Some newKey)
                             (Some (describe (index (snd keyInfo)) total masked))),
                   (manager3, flag'))
              end
          end
      end
  end.

(** [rotateApiKey()]; the [console.error] of the [catch] is left out. *)
Definition rotateApiKey (now : Date) (u : Q) (s : state) : outcome rotation * state :=
  match getApiKeyManager (apiKeyManager s) with
  | None => (Return not_rotated, s)
  | Some manager =>
      match getTotalKeyCount manager with
      | (Throw e, manager') => (Throw e, with_manager manager' s)
      | (Return total, manager') =>
          if total <=? 1 then (Return not_rotated, with_manager manager' s)
          else
            match rotateApiKey_try now u manager' (globalApiKeyRotated s) with
            | (Return result, (manager'', flag)) => (Return result, mkState (Some manager'') flag)
            | (Throw _, (manager'', flag)) => (Return not_rotated, mkState (Some manager'') flag)
            end
      end
  end.

(** [checkAndResetApiKeyRotation()] *)
Definition checkAndResetApiKeyRotation (s : state) : bool * state :=
  let rotated := globalApiKeyRotated s in
  (rotated, mkState (apiKeyManager s) false).

(** [reportApiKeyError(error)] *)
Definition reportApiKeyError (error : jsstring) (s : state) : outcome unit * state :=
  match getApiKeyManager (apiKeyManager s) with
  | Some manager =>
      match reportError error manager with
      | (r, manager') => (r, with_manager manager' s)
      end
  | None => (Return tt, s)
  end.

(** [getCurrentApiKeyInfo()]: a string, or [None] for [null]. *)
Definition getCurrentApiKeyInfo (s : state) : outcome (option jsstring) * state :=
  match getApiKeyManager (apiKeyManager s) with
  | None => (Return None, s)
  | Some manager =>
      match getCurrentApiKeyInfo manager with
      | (Throw _, manager1) => (Return None, with_manager manager1 s)
      | (Return keyInfo, manager1) =>
          match getTotalKeyCount manager1 with
          | (Throw _, manager2) => (Return None, with_manager manager2 s)
          | (Return total, manager2) =>
              match maskApiKey (key (snd keyInfo)) with
              | Throw _ => (Return None, with_manager manager2 s)
              | Return masked =>
                  (Return (Some (describe (index (snd keyInfo)) total masked)),
                   with_manager manager2 s)
              end
          end
      end
  end.

End ContentGenerator.

(** ** Sequences of calls *)

(** One call of a public method by a client, with the values the
    environment supplies to it. *)
Inductive call : Type :=
| call_getCurrentApiKey (now : Date)
| call_getCurrentApiKeyInfo
| call_rotateApiKey (now : Date) (u : Q)
| call_reportError (error : jsstring)
| call_getAllApiKeysStatus
| call_getActiveKeyCount
| call_getTotalKeyCount
| call_resetErrorCounts
| call_maskApiKey (apiKey : jsstring).

(** The receiver after one call, whether it returned or threw. *)
Definition state_after (c : call) (this : ApiKeyManager) : ApiKeyManager :=
  match c with
  | call_getCurrentApiKey now => snd (getCurrentApiKey now this)
  | call_getCurrentApiKeyInfo => snd (getCurrentApiKeyInfo this)
  | call_rotateApiKey now u => snd (rotateApiKey now u this)
  | call_reportError error => snd (reportError error this)
  | call_getAllApiKeysStatus => snd (getAllApiKeysStatus this)
  | call_getActiveKeyCount => snd (getActiveKeyCount this)
  | call_getTotalKeyCount => snd (getTotalKeyCount this)
  | call_resetErrorCounts => snd (resetErrorCounts this)
  | call_maskApiKey _ => this
  end.

(** The receiver after a sequence of calls, first call first. *)
Definition run (cs : list call) (this : ApiKeyManager) : ApiKeyManager :=
  fold_left (fun this c => state_after c this) cs this.

Definition is_rotate (c : call) : bool :=
  match c with call_rotateApiKey _ _ => true | _ => false end.

Definition is_reportError (c : call) : bool :=
  match c with call_reportError _ => true | _ => false end.

(** ** Vocabulary of the specification *)

Definition asterisk : code_unit := N_of_ascii "*".

(** The masked form as the specification words it: all stars up to 12
    code units, otherwise the first 8, stars for the middle, the last 4. *)
Definition masked_as_specified (value : jsstring) : jsstring :=
  if (length value <=? 12)%nat then replicate (length value) asterisk
  else take 8 value ++ replicate (length value - 12) asterisk
       ++ drop (length value - 4) value.

(** The raw string is empty or all-whitespace. *)
Definition all_whitespace (raw : jsstring) : bool := forallb is_whitespace raw.

(** The non-empty trimmed segments of the raw string. *)
Definition segments (raw : jsstring) : list jsstring :=
  List.filter (fun s => negb (is_empty_string s))
    (List.map trim (split semicolon raw)).

(** The error kinds of the specification. *)
Definition EmptyInput : exn := Error "No API keys provided".
Definition NoValidCredentials : exn := Error "No valid API keys found after parsing".
Definition NoActiveCredentials (e : exn) : Prop :=
  e = Error "No active API keys available"
  \/ e = Error "No active API keys available for rotation".

(** The active subset, in array order. *)
Definition active_subset (this : ApiKeyManager) : list ApiKeyInfo :=
  List.filter isActive (apiKeys this).

(** The credential that [currentIndex] designates: the first object of
    the table whose [index] is [currentIndex]. *)
Definition current_credential (this : ApiKeyManager) : option objref :=
  List.find (fun k => index (snd k) =? currentIndex this) (objects this).

(** Every object carries its own position as [index]. *)
Definition indexed (this : ApiKeyManager) : Prop :=
  List.map index (apiKeys this)
  = List.map Z.of_nat (seq 0 (length (apiKeys this))).

(** The effect of one reported error on the object it is charged to. *)
Definition charged (max : Z) (error : jsstring) (k : ApiKeyInfo) : ApiKeyInfo :=
  mkApiKeyInfo (key k) (index k)
    (if max <=? errorCount k + 1 then false else isActive k)
    (errorCount k + 1) (lastUsed k) (Some error).

(** What every call keeps of an object: its key and its [index]; and,
    unless the call is [reportError], its being active. *)
Definition kept (c : call) (k k' : ApiKeyInfo) : Prop :=
  key k' = key k /\ index k' = index k
  /\ (is_reportError c = false -> isActive k = true -> isActive k' = true).

(** The manager [new ApiKeyManager(raw, cfg)] returns, for examples. *)
Definition fresh (raw : string) (cfg : PartialConfig) : ApiKeyManager :=
  match constructor (js raw) cfg with
  | Return m => m
  | Throw _ => mkApiKeyManager [] 0 (merge_config cfg)
  end.

(** Every inactive credential has reached the error threshold. *)
Definition deactivated_over_threshold (this : ApiKeyManager) : Prop :=
  Forall (fun k => isActive k = false -> maxErrorsPerKey (config this) <= errorCount k)
    (apiKeys this).

(** The table has the [index] values [0 .. n-1], in order, and
    [currentIndex] is one of them. *)
Definition index_invariant (n : nat) (this : ApiKeyManager) : Prop :=
  List.map index (apiKeys this) = List.map Z.of_nat (seq 0 n)
  /\ 0 <= currentIndex this < Z.of_nat n.

(** Three credentials, indexed 0, 1, 2, all active, rotated round-robin. *)
Definition three_active (this : ApiKeyManager) : Prop :=
  exists a b c,
    apiKeys this = [a; b; c]
    /\ index a = 0 /\ index b = 1 /\ index c = 2
    /\ isActive a = true /\ isActive b = true /\ isActive c = true
    /\ rotationStrategy (config this) = round_robin.

(** The values [currentIndex] takes, one after each call of a sequence. *)
Fixpoint visits (cs : list call) (this : ApiKeyManager) : list Z :=
  match cs with
  | [] => []
  | c :: cs' => currentIndex (state_after c this) :: visits cs' (state_after c this)
  end.

(** A sequence of [rotateApiKey()] calls, one per environment input. *)
Definition rotations (envs : list (Date * Q)) : list call :=
  List.map (fun e => call_rotateApiKey (fst e) (snd e)) envs.

(** A sequence of [reportError(error)] calls, one per message. *)
Definition reports (errors : list jsstring) : list call :=
  List.map call_reportError errors.

Definition is_reset (c : call) : bool :=
  match c with call_resetErrorCounts => true | _ => false end.

(** What every call other than [resetErrorCounts] does to an object at
    most: raise its error count, deactivate it. *)
Definition worn (k k' : ApiKeyInfo) : Prop :=
  errorCount k <= errorCount k' /\ (isActive k' = true -> isActive k = true).

(** What [resetErrorCounts] keeps of an object. *)
Definition identity_kept (k k' : ApiKeyInfo) : Prop :=
  key k' = key k /\ index k' = index k /\ lastUsed k' = lastUsed k.

(** A key as the parser leaves it: not empty, free of the separator and
    with no whitespace at either end. *)
Definition clean_key (s : jsstring) : Prop :=
  s <> []
  /\ ~ In semicolon s
  /\ (forall c, head s = Some c -> is_whitespace c = false)
  /\ (forall c, last s = Some c -> is_whitespace c = false).

(** The reference [k] after [ref.field = ...] on the object at position
    [r]: the same position, the fields updated if it is that object. *)
Definition touch (f : ApiKeyInfo -> ApiKeyInfo) (r : nat) (k : objref) : objref :=
  (fst k, if Nat.eqb (fst k) r then f (snd k) else snd k).

(** * Properties *)

(** ** Strings and masking *)

Lemma concat_repeat_singleton (c : code_unit) (n : nat) :
  List.concat (List.repeat [c] n) = replicate n c.
Proof. induction n as [|n IH]; simpl; [reflexivity | now rewrite IH]. Qed.

Lemma jsrepeat_star (n : nat) :
  jsrepeat star (Z.of_nat n) = Return (replicate n asterisk).
Proof.
  unfold jsrepeat. destruct (Z.ltb_spec (Z.of_nat n) 0) as [Hneg|_]; [lia|].
  rewrite Nat2Z.id. unfold star, js. simpl. now rewrite concat_repeat_singleton.
Qed.

Lemma substring_prefix (s : jsstring) (n : nat) :
  (n <= length s)%nat -> substring s 0 (Some (Z.of_nat n)) = take n s.
Proof.
  intros Hn. unfold substring, clamp, jslength.
  replace (Z.min (Z.max 0 0) (Z.of_nat (length s))) with 0 by lia.
  replace (Z.min (Z.max (Z.of_nat n) 0) (Z.of_nat (length s))) with (Z.of_nat n) by lia.
  replace (Z.min 0 (Z.of_nat n)) with 0 by lia.
  replace (Z.max 0 (Z.of_nat n) - 0) with (Z.of_nat n) by lia.
  now rewrite Nat2Z.id.
Qed.

Lemma substring_suffix (s : jsstring) (n : nat) :
  (n <= length s)%nat -> substring s (Z.of_nat n) None = drop n s.
Proof.
  intros Hn. unfold substring, clamp, jslength.
  replace (Z.min (Z.max (Z.of_nat n) 0) (Z.of_nat (length s))) with (Z.of_nat n) by lia.
  replace (Z.min (Z.max (Z.of_nat (length s)) 0) (Z.of_nat (length s)))
    with (Z.of_nat (length s)) by lia.
  replace (Z.min (Z.of_nat n) (Z.of_nat (length s))) with (Z.of_nat n) by lia.
  replace (Z.max (Z.of_nat n) (Z.of_nat (length s)) - Z.of_nat n)
    with (Z.of_nat (length s - n)) by lia.
  rewrite !Nat2Z.id. apply take_ge. rewrite length_drop. lia.
Qed.

Lemma length_masked_as_specified (value : jsstring) :
  length (masked_as_specified value) = length value.
Proof.
  unfold masked_as_specified.
  destruct (Nat.leb_spec (length value) 12) as [Hle|Hgt].
  - apply length_replicate.
  - rewrite !length_app, length_take, length_replicate, length_drop. lia.
Qed.

(** C6: for every string, [maskApiKey] returns (it never throws) all
    stars when the string has at most 12 code units, and otherwise the
    first 8 code units, [length - 12] stars and the last 4 code units; the
    result has the length of the input. *)
Theorem maskApiKey_spec (value : jsstring) :
  maskApiKey value = Return (masked_as_specified value)
  /\ length (masked_as_specified value) = length value
  /\ ((length value <= 12)%nat ->
      masked_as_specified value = replicate (length value) asterisk)
  /\ ((12 < length value)%nat ->
      masked_as_specified value
      = take 8 value ++ replicate (length value - 12) asterisk
        ++ drop (length value - 4) value).
Proof.
  split; [|split; [apply length_masked_as_specified|split]].
  - unfold maskApiKey, masked_as_specified, jslength.
    destruct (Nat.leb_spec (length value) 12) as [Hle|Hgt].
    + destruct (Z.leb_spec (Z.of_nat (length value)) 12) as [_|Hc]; [|lia].
      apply jsrepeat_star.
    + destruct (Z.leb_spec (Z.of_nat (length value)) 12) as [Hc|_]; [lia|].
      replace (Z.of_nat (length value) - 12) with (Z.of_nat (length value - 12)) by lia.
      rewrite jsrepeat_star.
      replace (Z.of_nat (length value) - 4) with (Z.of_nat (length value - 4)) by lia.
      change (Some 8) with (Some (Z.of_nat 8)).
      rewrite (substring_prefix value 8) by lia.
      rewrite substring_suffix by lia. reflexivity.
  - intros Hle. unfold masked_as_specified.
    destruct (Nat.leb_spec (length value) 12); [reflexivity | lia].
  - intros Hgt. unfold masked_as_specified.
    destruct (Nat.leb_spec (length value) 12); [lia | reflexivity].
Qed.

(** C3 as stated fails: the literal has 19 code units, so the middle of
    the mask has 7 stars; the string with 8 stars is not the result. *)
Lemma maskApiKey_test_key_not_eight_stars :
  maskApiKey (js "AIzaSyTest123456789") <> Return (js "AIzaSyTe********6789").
Proof. vm_compute. discriminate. Qed.

(** C3, amended: [maskApiKey] applied to "AIzaSyTest123456789" (19 code
    units) returns the first 8 characters, 7 asterisks and the last 4
    characters, "AIzaSyTe*******6789". *)
Theorem maskApiKey_test_key :
  jslength (js "AIzaSyTest123456789") = 19
  /\ maskApiKey (js "AIzaSyTest123456789") = Return (js "AIzaSyTe*******6789")
  /\ js "AIzaSyTe*******6789"
     = take 8 (js "AIzaSyTest123456789") ++ replicate 7 asterisk
       ++ drop 15 (js "AIzaSyTest123456789").
Proof. repeat split; vm_compute; reflexivity. Qed.

(** ** Parsing and construction *)

Lemma length_zero_test {A} (l : list A) :
  (Z.of_nat (length l) =? 0) = match l with [] => true | _ :: _ => false end.
Proof. destruct l; reflexivity. Qed.

Lemma trimStart_nil (s : jsstring) :
  trimStart s = [] <-> all_whitespace s = true.
Proof.
  unfold all_whitespace. induction s as [|c s IH]; simpl; [tauto|].
  destruct (is_whitespace c); simpl; [exact IH|]. split; discriminate.
Qed.

Lemma trimStart_head (s : jsstring) (c : code_unit) (t : jsstring) :
  trimStart s = c :: t -> is_whitespace c = false.
Proof.
  induction s as [|d s IH]; simpl; [discriminate|].
  destruct (is_whitespace d) eqn:Hd; [exact IH|].
  intros H. injection H as -> _. exact Hd.
Qed.

Lemma all_whitespace_rev (s : jsstring) :
  all_whitespace (rev s) = all_whitespace s.
Proof.
  unfold all_whitespace. induction s as [|c s IH]; simpl; [reflexivity|].
  rewrite forallb_app, IH. simpl. rewrite andb_true_r. apply andb_comm.
Qed.

Lemma trim_nil (s : jsstring) :
  trim s = [] <-> all_whitespace s = true.
Proof.
  unfold trim, trimEnd. split.
  - intros H. apply (f_equal (@rev code_unit)) in H. rewrite rev_involutive in H.
    simpl in H. apply trimStart_nil in H. rewrite all_whitespace_rev in H.
    destruct (trimStart s) as [|c t] eqn:Hs; [now apply trimStart_nil|].
    apply trimStart_head in Hs. unfold all_whitespace in H. simpl in H.
    rewrite Hs in H. discriminate.
  - intros H. apply trimStart_nil in H. rewrite H. reflexivity.
Qed.

Lemma is_empty_string_trim (s : jsstring) :
  is_empty_string (trim s) = all_whitespace s.
Proof.
  destruct (all_whitespace s) eqn:Hs.
  - apply trim_nil in Hs. now rewrite Hs.
  - destruct (trim s) eqn:Ht; [|reflexivity].
    apply trim_nil in Ht. congruence.
Qed.

Lemma falsy_all_whitespace (s : jsstring) :
  falsy s || is_empty_string (trim s) = all_whitespace s.
Proof.
  rewrite is_empty_string_trim. destruct s; reflexivity.
Qed.

Lemma split_without_separator (sep : code_unit) (s : jsstring) :
  forallb (fun c => negb (c =? sep)%N) s = true -> split sep s = [s].
Proof.
  induction s as [|c s IH]; simpl; [reflexivity|].
  intros H. apply andb_true_iff in H as [Hc Hs].
  apply negb_true_iff in Hc. rewrite Hc, (IH Hs). reflexivity.
Qed.

Lemma whitespace_is_not_semicolon (s : jsstring) :
  all_whitespace s = true -> forallb (fun c => negb (c =? semicolon)%N) s = true.
Proof.
  unfold all_whitespace. induction s as [|c s IH]; simpl; [reflexivity|].
  intros H. apply andb_true_iff in H as [Hc Hs]. rewrite (IH Hs), andb_true_r.
  destruct (N.eqb_spec c semicolon) as [->|_]; [|reflexivity].
  vm_compute in Hc. discriminate.
Qed.

Lemma all_whitespace_no_segments (raw : jsstring) :
  all_whitespace raw = true -> segments raw = [].
Proof.
  intros H. unfold segments.
  rewrite (split_without_separator _ _ (whitespace_is_not_semicolon _ H)).
  simpl. rewrite is_empty_string_trim, H. reflexivity.
Qed.

Lemma parsed_keys_are_segments (raw : jsstring) :
  List.filter (fun key => jslength key >? 0)
    (List.map (fun key => trim key) (split semicolon raw))
  = segments raw.
Proof.
  unfold segments. apply filter_ext. intros [|c s]; reflexivity.
Qed.

Lemma imap_fresh_keys (keys : list jsstring) (n : nat) :
  let l := imap (fun index key => mkApiKeyInfo key (Z.of_nat (n + index)) true 0 None None) keys in
  List.map key l = keys
  /\ List.map index l = List.map Z.of_nat (seq n (length keys))
  /\ Forall (fun k => errorCount k = 0 /\ isActive k = true
                      /\ lastUsed k = None /\ lastError k = None) l.
Proof.
  revert n. induction keys as [|s keys IH]; intros n; simpl.
  - repeat split; constructor.
  - destruct (IH (S n)) as (Hk & Hi & Hf).
    assert (Hext : imap ((fun index key => mkApiKeyInfo key (Z.of_nat (n + index)) true 0 None None) ∘ S) keys
                   = imap (fun index key => mkApiKeyInfo key (Z.of_nat (S n + index)) true 0 None None) keys).
    { apply imap_ext. intros i x _. simpl. f_equal. lia. }
    rewrite Hext. rewrite Hk, Hi, Nat.add_0_r. repeat split.
    constructor; [repeat split|exact Hf].
Qed.

(** What the constructor yields in each of its three outcomes. *)
Lemma constructor_cases (raw : jsstring) (cfg : PartialConfig) :
  constructor raw cfg =
  if all_whitespace raw then Throw EmptyInput
  else match segments raw with
       | [] => Throw NoValidCredentials
       | _ :: _ =>
           Return (mkApiKeyManager
                     (imap (fun index key => mkApiKeyInfo key (Z.of_nat index) true 0 None None)
                        (segments raw))
                     0 (merge_config cfg))
       end.
Proof.
  unfold constructor, parseApiKeys.
  rewrite falsy_all_whitespace, parsed_keys_are_segments.
  destruct (all_whitespace raw); [reflexivity|].
  destruct (segments raw) as [|s l]; reflexivity.
Qed.

(** The validator and the constructor parse alike: they fail on the same
    inputs with the same messages, and the validator counts the
    credentials the constructor builds. *)
Lemma parseAndValidateApiKeys_agrees (raw : jsstring) (cfg : PartialConfig) :
  match constructor raw cfg with
  | Throw (Error message) =>
      parseAndValidateApiKeys raw = mkValidation false 0 (Some message)
  | Throw _ => False
  | Return m => keyCount (parseAndValidateApiKeys raw) = Z.of_nat (length (apiKeys m))
  end.
Proof.
  rewrite constructor_cases. unfold parseAndValidateApiKeys.
  rewrite falsy_all_whitespace, parsed_keys_are_segments.
  destruct (all_whitespace raw); [reflexivity|].
  destruct (segments raw) as [|s l]; [reflexivity|].
  rewrite length_zero_test. cbv beta iota. unfold apiKeys at 1. rewrite length_imap.
  destruct (Z.of_nat (length (List.filter (fun key => jslength key <? 8) (s :: l))) >? 0);
    reflexivity.
Qed.

(** C4: construction throws the empty-input error when the raw string is
    empty or all-whitespace; throws the no-valid-credentials error when
    (the string is not all-whitespace and) no non-empty trimmed segment is
    left; otherwise returns a manager with one credential per non-empty
    trimmed segment, in order, indexed from 0, each with [errorCount] 0
    and [active] true, and with [currentIndex] 0.  A failed construction
    yields no manager, and the module-level instance is not touched by
    it. *)
Theorem constructor_spec (raw : jsstring) (cfg : PartialConfig) :
  (all_whitespace raw = true -> constructor raw cfg = Throw EmptyInput)
  /\ (all_whitespace raw = false -> segments raw = [] ->
      constructor raw cfg = Throw NoValidCredentials)
  /\ (segments raw <> [] ->
      exists m, constructor raw cfg = Return m
        /\ length (apiKeys m) = length (segments raw)
        /\ List.map key (apiKeys m) = segments raw
        /\ indexed m
        /\ Forall (fun k => errorCount k = 0 /\ isActive k = true
                            /\ lastUsed k = None /\ lastError k = None) (apiKeys m)
        /\ currentIndex m = 0
        /\ config m = merge_config cfg)
  /\ (forall e, constructor raw cfg = Throw e ->
      forall g, initializeApiKeyManager raw (Some cfg) g = (Throw e, g)).
Proof.
  rewrite constructor_cases. repeat split.
  - intros ->. reflexivity.
  - intros -> ->. reflexivity.
  - intros Hseg.
    destruct (all_whitespace raw) eqn:Hws.
    { now apply all_whitespace_no_segments in Hws. }
    destruct (segments raw) as [|s l] eqn:Hs; [congruence|].
    eexists. split; [reflexivity|]. rewrite <- Hs.
    destruct (imap_fresh_keys (segments raw) 0) as (Hk & Hi & Hf).
    simpl in Hk, Hi, Hf. unfold indexed. simpl.
    rewrite length_imap. repeat split; assumption.
  - intros e He g. unfold initializeApiKeyManager. simpl.
    rewrite constructor_cases, He. reflexivity.
Qed.

Lemma constructor_spec_witness :
  exists m, constructor (js " a ; b;;c; ") emptyConfig = Return m
    /\ length (apiKeys m) = 3%nat
    /\ currentIndex m = 0.
Proof.
  destruct (constructor_spec (js " a ; b;;c; ") emptyConfig) as (_ & _ & H & _).
  destruct H as (m & Hm & Hlen & _ & _ & _ & Hcur & _).
  { vm_compute. discriminate. }
  exists m. split; [exact Hm|]. split; [|exact Hcur].
  rewrite Hlen. vm_compute. reflexivity.
Defined.

(** C10: when [initializeApiKeyManager] is called with a raw string whose
    construction fails (empty or all-whitespace input, or no non-empty
    segment), the error propagates and the stored instance, or its
    absence, is what it was: [getApiKeyManager()] returns the same value
    as before the call. *)
Theorem initializeApiKeyManager_failure_atomic
    (raw : jsstring) (cfg : option PartialConfig) (g : module_state) :
  all_whitespace raw = true \/ segments raw = [] ->
  exists e,
    constructor raw (default emptyConfig cfg) = Throw e
    /\ (e = EmptyInput \/ e = NoValidCredentials)
    /\ initializeApiKeyManager raw cfg g = (Throw e, g)
    /\ getApiKeyManager (snd (initializeApiKeyManager raw cfg g)) = getApiKeyManager g.
Proof.
  intros Hfail. unfold initializeApiKeyManager.
  rewrite constructor_cases.
  destruct (all_whitespace raw) eqn:Hws.
  - exists EmptyInput. repeat split. now left.
  - destruct Hfail as [Hc | Hseg]; [discriminate|]. rewrite Hseg.
    exists NoValidCredentials. repeat split. now right.
Qed.

Lemma initializeApiKeyManager_failure_atomic_witness :
  exists e,
    initializeApiKeyManager (js ";;") None (Some (mkApiKeyManager [] 0 (merge_config emptyConfig)))
    = (Throw e, Some (mkApiKeyManager [] 0 (merge_config emptyConfig))).
Proof.
  destruct (initializeApiKeyManager_failure_atomic (js ";;") None
              (Some (mkApiKeyManager [] 0 (merge_config emptyConfig))))
    as (e & _ & _ & H & _).
  { right. vm_compute. reflexivity. }
  exists e. exact H.
Defined.

(** ** Object references and the active subset *)

Lemma In_enumerate_from (r : nat) (k : ApiKeyInfo) (n : nat) (l : list ApiKeyInfo) :
  In (r, k) (enumerate_from n l) <-> (n <= r)%nat /\ l !! (r - n)%nat = Some k.
Proof.
  revert n. induction l as [|x l IH]; intros n; simpl.
  - split; [tauto | intros [_ H]; discriminate].
  - rewrite IH. split.
    + intros [H | [Hle Hl]].
      * injection H as -> ->. split; [lia|]. now rewrite Nat.sub_diag.
      * split; [lia|]. replace (r - n)%nat with (S (r - S n)) by lia. exact Hl.
    + intros [Hle Hl]. destruct (r - n)%nat as [|j] eqn:Hj.
      * left. simpl in Hl. injection Hl as ->. f_equal. lia.
      * right. split; [lia|]. simpl in Hl. now replace (r - S n)%nat with j by lia.
Qed.

Lemma In_objects (r : nat) (k : ApiKeyInfo) (this : ApiKeyManager) :
  In (r, k) (objects this) <-> apiKeys this !! r = Some k.
Proof.
  unfold objects. rewrite In_enumerate_from, Nat.sub_0_r.
  split; [tauto | split; [lia | assumption]].
Qed.

Lemma In_getActiveKeys (r : nat) (k : ApiKeyInfo) (this : ApiKeyManager) :
  In (r, k) (getActiveKeys this) <-> apiKeys this !! r = Some k /\ isActive k = true.
Proof. unfold getActiveKeys. now rewrite filter_In, In_objects. Qed.

Lemma map_snd_enumerate_from (n : nat) (l : list ApiKeyInfo) :
  List.map snd (enumerate_from n l) = l.
Proof. revert n. induction l as [|x l IH]; intros n; simpl; [|rewrite IH]; reflexivity. Qed.

Lemma map_snd_filter {A B} (p : B -> bool) (l : list (A * B)) :
  List.map snd (List.filter (fun x => p (snd x)) l) = List.filter p (List.map snd l).
Proof.
  induction l as [|x l IH]; simpl; [reflexivity|].
  destruct (p (snd x)); simpl; now rewrite IH.
Qed.

Lemma map_snd_getActiveKeys (this : ApiKeyManager) :
  List.map snd (getActiveKeys this) = active_subset this.
Proof.
  unfold getActiveKeys, active_subset, objects.
  now rewrite map_snd_filter, map_snd_enumerate_from.
Qed.

Lemma getActiveKeys_nil (this : ApiKeyManager) :
  getActiveKeys this = [] <-> active_subset this = [].
Proof.
  rewrite <- map_snd_getActiveKeys. destruct (getActiveKeys this); simpl; split; congruence.
Qed.

Lemma In_active_subset (k : ApiKeyInfo) (this : ApiKeyManager) :
  In k (active_subset this) <-> exists r, In (r, k) (getActiveKeys this).
Proof.
  rewrite <- map_snd_getActiveKeys, in_map_iff. split.
  - intros ([r k'] & Hk & Hin). simpl in Hk. subst. now exists r.
  - intros [r Hin]. now exists (r, k).
Qed.

Lemma at_index_In {A} (arr : list A) (i : Z) (x : A) :
  at_index arr i = Some x -> In x arr.
Proof.
  unfold at_index. destruct (i <? 0); [discriminate|].
  intros H. apply list_elem_of_In. eapply list_elem_of_lookup_2. exact H.
Qed.

Lemma at_index_in_range {A} (arr : list A) (i : Z) :
  0 <= i < Z.of_nat (length arr) -> exists x, at_index arr i = Some x.
Proof.
  intros Hi. unfold at_index. destruct (Z.ltb_spec i 0); [lia|].
  apply lookup_lt_is_Some. lia.
Qed.

Lemma find_current_or_first_In (this : ApiKeyManager) (activeKeys : list objref) :
  activeKeys <> [] ->
  exists k, find_current_or_first this activeKeys = Some k /\ In k activeKeys.
Proof.
  intros Hne. unfold find_current_or_first.
  destruct (List.find (fun k => index (snd k) =? currentIndex this) activeKeys)
    as [k|] eqn:Hf.
  - exists k. split; [reflexivity|]. now apply find_some in Hf.
  - destruct activeKeys as [|k l]; [congruence|]. exists k. split; [reflexivity | now left].
Qed.

(** ** getCurrentApiKey and getCurrentApiKeyInfo *)

Lemma getCurrentApiKey_none (now : Date) (this : ApiKeyManager) :
  getActiveKeys this = [] ->
  getCurrentApiKey now this = (Throw (Error "No active API keys available"), this).
Proof. intros H. unfold getCurrentApiKey, bind, read. now rewrite H. Qed.

Lemma getCurrentApiKey_some (now : Date) (this : ApiKeyManager) :
  getActiveKeys this <> [] ->
  exists r k,
    find_current_or_first this (getActiveKeys this) = Some (r, k)
    /\ In (r, k) (getActiveKeys this)
    /\ getCurrentApiKey now this
       = (Return (key k),
          set_apiKeys (alter (set_lastUsed (Some now)) r (apiKeys this)) this).
Proof.
  intros Hne.
  destruct (find_current_or_first_In this _ Hne) as ([r k] & Hf & Hin).
  exists r, k. split; [exact Hf|]. split; [exact Hin|].
  unfold getCurrentApiKey, bind, read. rewrite length_zero_test.
  destruct (getActiveKeys this) eqn:Ha; [congruence|]. now rewrite Hf.
Qed.

Lemma getCurrentApiKeyInfo_state (this : ApiKeyManager) :
  snd (getCurrentApiKeyInfo this) = this.
Proof.
  unfold getCurrentApiKeyInfo, bind, read. simpl.
  destruct (Z.of_nat (length (getActiveKeys this)) =? 0); [reflexivity|].
  destruct (find_current_or_first this (getActiveKeys this)); reflexivity.
Qed.

(** ** The rotation strategies *)

Lemma set_currentIndex_from_cases (arr : list objref) (i : Z) (this : ApiKeyManager) :
  (exists k, at_index arr i = Some k /\ In k arr
     /\ set_currentIndex_from arr i this
        = (Return tt, set_currentIndex (index (snd k)) this))
  \/ (at_index arr i = None
      /\ set_currentIndex_from arr i this = (Throw TypeError, this)).
Proof.
  unfold set_currentIndex_from. destruct (at_index arr i) as [k|] eqn:Hk.
  - left. exists k. split; [reflexivity|]. split; [now apply at_index_In in Hk | reflexivity].
  - right. split; reflexivity.
Qed.

Section Arrays.
Context {A : Type}.

Lemma findIndex_from_range (p : A -> bool) (i : Z) (arr : list A) :
  findIndex_from p i arr = -1
  \/ i <= findIndex_from p i arr < i + Z.of_nat (length arr).
Proof.
  revert i. induction arr as [|x arr IH]; intros i; simpl; [now left|].
  destruct (p x); [right; lia|].
  destruct (IH (i + 1)) as [H | H]; [now left | right; lia].
Qed.

Lemma findIndex_from_none (p : A -> bool) (i : Z) (arr : list A) :
  (forall x, In x arr -> p x = false) -> findIndex_from p i arr = -1.
Proof.
  revert i. induction arr as [|x arr IH]; intros i Hp; simpl; [reflexivity|].
  rewrite (Hp x) by now left. apply IH. intros y Hy. apply Hp. now right.
Qed.

Variable cmp : A -> A -> Z.

Lemma In_insert_sorted (x y : A) (l : list A) :
  In y (insert_sorted cmp x l) <-> y = x \/ In y l.
Proof.
  induction l as [|z l IH]; simpl; [intuition|].
  destruct (cmp x z <=? 0); simpl; [intuition|]. rewrite IH. intuition.
Qed.

Lemma In_sort (y : A) (l : list A) :
  In y (sort cmp l) <-> In y l.
Proof.
  induction l as [|x l IH]; simpl; [tauto|].
  rewrite In_insert_sorted, IH. intuition.
Qed.

Lemma sort_nil (l : list A) :
  sort cmp l = [] -> l = [].
Proof.
  destruct l as [|x l]; [reflexivity|]. simpl.
  destruct (sort cmp l) as [|y s]; simpl; [discriminate|].
  destruct (cmp x y <=? 0); discriminate.
Qed.
End Arrays.

Lemma Qfloor_unit_interval (u : Q) (n : nat) :
  (0 <= u)%Q -> (u < 1)%Q -> (0 < n)%nat ->
  0 <= Qfloor (u * inject_Z (Z.of_nat n))%Q < Z.of_nat n.
Proof.
  intros H0 H1 Hn.
  assert (Hpos : (0 < inject_Z (Z.of_nat n))%Q).
  { change 0%Q with (inject_Z 0). rewrite <- Zlt_Qlt. lia. }
  split.
  - change 0 with (Qfloor (inject_Z 0)).
    apply Qfloor_resp_le. change (inject_Z 0) with 0%Q.
    apply Qmult_le_0_compat; [exact H0 | now apply Qlt_le_weak].
  - rewrite Zlt_Qlt.
    eapply Qle_lt_trans; [apply Qfloor_le|].
    rewrite <- (Qmult_1_l (inject_Z (Z.of_nat n))) at 2.
    apply Qmult_lt_compat_r; assumption.
Qed.

Lemma rotateRoundRobin_ok (activeKeys : list objref) (this : ApiKeyManager) :
  activeKeys <> [] ->
  exists k, In k activeKeys
    /\ rotateRoundRobin activeKeys this
       = (Return tt, set_currentIndex (index (snd k)) this).
Proof.
  intros Hne. unfold rotateRoundRobin, bind, read.
  set (i := jsmod _ _).
  assert (Hi : 0 <= i < Z.of_nat (length activeKeys)).
  { subst i. unfold jsmod, findIndex. apply Z.rem_bound_pos.
    - pose proof (findIndex_from_range
                    (fun k : objref => index (snd k) =? currentIndex this) 0 activeKeys).
      lia.
    - destruct activeKeys; [congruence | simpl; lia]. }
  destruct (at_index_in_range activeKeys i Hi) as [k Hk].
  destruct (set_currentIndex_from_cases activeKeys i this) as [(k' & _ & Hin & Heq) | [Hnone _]].
  - exists k'. split; assumption.
  - congruence.
Qed.

Lemma rotateLeastErrors_ok (activeKeys : list objref) (this : ApiKeyManager) :
  activeKeys <> [] ->
  exists k, In k activeKeys
    /\ at_index (sort (fun a b => errorCount (snd a) - errorCount (snd b)) activeKeys) 0
       = Some k
    /\ rotateLeastErrors activeKeys this
       = (Return tt, set_currentIndex (index (snd k)) this).
Proof.
  intros Hne. unfold rotateLeastErrors.
  remember (sort (fun a b : objref => errorCount (snd a) - errorCount (snd b)) activeKeys)
    as sortedKeys eqn:Hs.
  destruct (set_currentIndex_from_cases sortedKeys 0 this)
    as [(k & Hat & Hin & Heq) | [Hnone _]].
  - exists k. split; [|split; assumption].
    rewrite Hs in Hin. now apply In_sort in Hin.
  - destruct sortedKeys; [|discriminate].
    symmetry in Hs. now apply sort_nil in Hs.
Qed.

Lemma rotateRandom_ok (u : Q) (activeKeys : list objref) (this : ApiKeyManager) :
  (0 <= u)%Q -> (u < 1)%Q -> activeKeys <> [] ->
  exists k, In k activeKeys
    /\ rotateRandom u activeKeys this
       = (Return tt, set_currentIndex (index (snd k)) this).
Proof.
  intros H0 H1 Hne. unfold rotateRandom.
  assert (Hlen : (0 < length activeKeys)%nat).
  { destruct activeKeys; [congruence | simpl; lia]. }
  pose proof (Qfloor_unit_interval u _ H0 H1 Hlen) as Hi.
  destruct (at_index_in_range activeKeys _ Hi) as [k Hk].
  destruct (set_currentIndex_from_cases activeKeys
              (Qfloor (u * inject_Z (Z.of_nat (length activeKeys)))) this)
    as [(k' & _ & Hin & Heq) | [Hnone _]].
  - exists k'. split; assumption.
  - congruence.
Qed.

(** The switch either moves [currentIndex] to the [index] of one of the
    active keys or throws and leaves the receiver as it was. *)
Lemma rotation_switch_cases (u : Q) (activeKeys : list objref) (this : ApiKeyManager) :
  activeKeys <> [] ->
  (exists k, In k activeKeys
     /\ rotation_switch u activeKeys this
        = (Return tt, set_currentIndex (index (snd k)) this))
  \/ (rotationStrategy (config this) = random
      /\ rotation_switch u activeKeys this = (Throw TypeError, this)).
Proof.
  intros Hne. unfold rotation_switch, bind, read.
  destruct (rotationStrategy (config this)) eqn:Hs.
  - left. now apply rotateRoundRobin_ok.
  - left. destruct (rotateLeastErrors_ok activeKeys this Hne) as (k & Hin & _ & Heq).
    now exists k.
  - unfold rotateRandom.
    destruct (set_currentIndex_from_cases activeKeys
                (Qfloor (u * inject_Z (Z.of_nat (length activeKeys)))) this)
      as [(k & _ & Hin & Heq) | [_ Heq]].
    + left. now exists k.
    + right. split; [reflexivity | exact Heq].
Qed.

Lemma rotation_switch_ok (u : Q) (activeKeys : list objref) (this : ApiKeyManager) :
  (0 <= u)%Q -> (u < 1)%Q -> activeKeys <> [] ->
  exists k, In k activeKeys
    /\ rotation_switch u activeKeys this
       = (Return tt, set_currentIndex (index (snd k)) this).
Proof.
  intros H0 H1 Hne. unfold rotation_switch, bind, read.
  destruct (rotationStrategy (config this)).
  - now apply rotateRoundRobin_ok.
  - destruct (rotateLeastErrors_ok activeKeys this Hne) as (k & Hin & _ & Heq).
    now exists k.
  - now apply rotateRandom_ok.
Qed.

(** ** rotateApiKey *)

Lemma rotateApiKey_none (now : Date) (u : Q) (this : ApiKeyManager) :
  getActiveKeys this = [] ->
  rotateApiKey now u this
  = (Throw (Error "No active API keys available for rotation"), this).
Proof. intros H. unfold rotateApiKey, bind, read. now rewrite H. Qed.

Lemma rotateApiKey_some (now : Date) (u : Q) (this : ApiKeyManager) :
  getActiveKeys this <> [] ->
  rotateApiKey now u this
  = match rotation_switch u (getActiveKeys this) this with
    | (Return _, this') => getCurrentApiKey now this'
    | (Throw e, this') => (Throw e, this')
    end.
Proof.
  intros Hne. unfold rotateApiKey, bind, read. rewrite length_zero_test.
  destruct (getActiveKeys this); [congruence | reflexivity].
Qed.

Lemma getActiveKeys_set_currentIndex (i : Z) (this : ApiKeyManager) :
  getActiveKeys (set_currentIndex i this) = getActiveKeys this.
Proof. reflexivity. Qed.

(** The three ways a rotation can end. *)
Lemma rotateApiKey_cases (now : Date) (u : Q) (this : ApiKeyManager) :
  (getActiveKeys this = []
   /\ rotateApiKey now u this
      = (Throw (Error "No active API keys available for rotation"), this))
  \/ (rotationStrategy (config this) = random
      /\ rotateApiKey now u this = (Throw TypeError, this))
  \/ (exists k0 r k,
        In k0 (getActiveKeys this) /\ In (r, k) (getActiveKeys this)
        /\ rotation_switch u (getActiveKeys this) this
           = (Return tt, set_currentIndex (index (snd k0)) this)
        /\ find_current_or_first (set_currentIndex (index (snd k0)) this)
             (getActiveKeys this) = Some (r, k)
        /\ rotateApiKey now u this
           = (Return (key k),
              mkApiKeyManager (alter (set_lastUsed (Some now)) r (apiKeys this))
                (index (snd k0)) (config this))).
Proof.
  destruct (getActiveKeys this) as [|a l] eqn:Ha.
  { left. split; [reflexivity | now apply rotateApiKey_none]. }
  right. assert (Hne : getActiveKeys this <> []) by congruence.
  rewrite (rotateApiKey_some now u this Hne). rewrite <- Ha.
  destruct (rotation_switch_cases u (getActiveKeys this) this Hne)
    as [(k0 & Hin0 & Heq) | [Hs Heq]].
  - right. rewrite Heq.
    destruct (getCurrentApiKey_some now (set_currentIndex (index (snd k0)) this))
      as (r & k & Hf & Hin & Hg).
    { now rewrite getActiveKeys_set_currentIndex. }
    rewrite getActiveKeys_set_currentIndex in Hf, Hin.
    exists k0, r, k. repeat split; try assumption.
  - left. rewrite Heq. split; [exact Hs | reflexivity].
Qed.

(** ** Exhaustion *)

Lemma getCurrentApiKey_active (now : Date) (this : ApiKeyManager) :
  active_subset this <> [] ->
  exists k, In k (active_subset this)
    /\ fst (getCurrentApiKey now this) = Return (key k).
Proof.
  intros Hne. rewrite <- getActiveKeys_nil in Hne.
  destruct (getCurrentApiKey_some now this Hne) as (r & k & _ & Hin & Heq).
  exists k. split; [apply In_active_subset; now exists r | now rewrite Heq].
Qed.

Lemma rotateApiKey_active (now : Date) (u : Q) (this : ApiKeyManager) :
  (0 <= u)%Q -> (u < 1)%Q ->
  active_subset this <> [] ->
  exists k, In k (active_subset this)
    /\ fst (rotateApiKey now u this) = Return (key k).
Proof.
  intros H0 H1 Hne. rewrite <- getActiveKeys_nil in Hne.
  destruct (rotateApiKey_cases now u this)
    as [[Hnil _] | [[Hs Heq] | (k0 & r & k & _ & Hin & _ & _ & Heq)]].
  - congruence.
  - destruct (rotation_switch_ok u (getActiveKeys this) this H0 H1 Hne) as (k & _ & Hk).
    rewrite (rotateApiKey_some now u this Hne), Hk in Heq.
    assert (Hne' : getActiveKeys (set_currentIndex (index (snd k)) this) <> []) by exact Hne.
    destruct (getCurrentApiKey_some now _ Hne') as (r' & k' & _ & _ & Hg).
    rewrite Hg in Heq. discriminate.
  - exists k. split; [apply In_active_subset; now exists r | now rewrite Heq].
Qed.

(** C7: [getCurrentApiKey()] and [rotateApiKey()] throw the
    no-active-credentials error if and only if the active subset is
    empty; when some credential is active, both return, and what they
    return is the key of a credential of the active subset.  ([u], the
    value of [Math.random()], lies in the unit interval.) *)
Theorem no_active_credentials_iff (now : Date) (u : Q) (this : ApiKeyManager) :
  (0 <= u)%Q -> (u < 1)%Q ->
  ((exists e, fst (getCurrentApiKey now this) = Throw e /\ NoActiveCredentials e)
   <-> active_subset this = [])
  /\ ((exists e, fst (rotateApiKey now u this) = Throw e /\ NoActiveCredentials e)
      <-> active_subset this = [])
  /\ (active_subset this <> [] ->
      (exists k, In k (active_subset this)
         /\ fst (getCurrentApiKey now this) = Return (key k))
      /\ (exists k, In k (active_subset this)
            /\ fst (rotateApiKey now u this) = Return (key k))).
Proof.
  intros H0 H1. split; [|split].
  - split.
    + intros (e & He & _). destruct (active_subset this) eqn:Ha; [reflexivity|].
      destruct (getCurrentApiKey_active now this) as (k & _ & Hk); [congruence|].
      congruence.
    + intros Ha. apply getActiveKeys_nil in Ha.
      rewrite (getCurrentApiKey_none now this Ha).
      eexists. split; [reflexivity | now left].
  - split.
    + intros (e & He & _). destruct (active_subset this) eqn:Ha; [reflexivity|].
      destruct (rotateApiKey_active now u this H0 H1) as (k & _ & Hk); [congruence|].
      congruence.
    + intros Ha. apply getActiveKeys_nil in Ha.
      rewrite (rotateApiKey_none now u this Ha).
      eexists. split; [reflexivity | now right].
  - intros Hne. split.
    + now apply getCurrentApiKey_active.
    + now apply rotateApiKey_active.
Qed.

Lemma no_active_credentials_iff_witness :
  exists k, In k (active_subset (fresh "k1;k2;k3" emptyConfig))
    /\ fst (rotateApiKey 7 (1 # 2) (fresh "k1;k2;k3" emptyConfig)) = Return (key k).
Proof.
  destruct (no_active_credentials_iff 7 (1 # 2) (fresh "k1;k2;k3" emptyConfig))
    as (_ & _ & H).
  - vm_compute. discriminate.
  - vm_compute. reflexivity.
  - destruct H as [_ H]; [vm_compute; discriminate | exact H].
Defined.

(** ** reportError *)

Lemma alter_lookup {A} (f : A -> A) (l : list A) (r : nat) (k : A) :
  l !! r = Some k -> alter f r l = <[r := f k]> l.
Proof.
  revert r. induction l as [|x l IH]; intros [|r] H; simpl in *; try discriminate.
  - injection H as ->. reflexivity.
  - f_equal. now apply IH.
Qed.

Lemma current_credential_Some (this : ApiKeyManager) (r : nat) (k : ApiKeyInfo) :
  current_credential this = Some (r, k) ->
  apiKeys this !! r = Some k /\ index k = currentIndex this.
Proof.
  unfold current_credential. intros H. apply find_some in H as [Hin Hi].
  apply In_objects in Hin. simpl in Hi. split; [exact Hin | lia].
Qed.

Lemma current_credential_exists (this : ApiKeyManager) :
  (exists k, In k (apiKeys this) /\ index k = currentIndex this) ->
  exists r k, current_credential this = Some (r, k).
Proof.
  intros (k & Hin & Hi). unfold current_credential.
  destruct (List.find (fun k => index (snd k) =? currentIndex this) (objects this))
    as [[r k']|] eqn:Hf; [now exists r, k'|].
  apply list_elem_of_In, list_elem_of_lookup in Hin as [r Hr].
  apply In_objects in Hr. eapply find_none in Hf; [|exact Hr].
  simpl in Hf. lia.
Qed.

Lemma reportError_cases (error : jsstring) (this : ApiKeyManager) :
  reportError error this =
  match current_credential this with
  | Some (r, k) =>
      (Return tt,
       set_apiKeys (<[r := charged (maxErrorsPerKey (config this)) error k]> (apiKeys this))
         this)
  | None => (Return tt, this)
  end.
Proof.
  unfold reportError, bind, read, update, assign, ret. fold (current_credential this).
  destruct (current_credential this) as [[r k]|] eqn:Hc; [|reflexivity].
  apply current_credential_Some in Hc as [Hr _]. simpl.
  rewrite Z.geb_leb.
  destruct (maxErrorsPerKey (config this) <=? errorCount k + 1) eqn:Hmax;
    simpl; unfold set_apiKeys; simpl; repeat rewrite list_alter_alter_eq;
    rewrite (alter_lookup _ _ _ _ Hr); unfold charged; rewrite Hmax; reflexivity.
Qed.

(** ** What calls keep *)

Lemma Forall2_kept_refl (c : call) (l : list ApiKeyInfo) :
  Forall2 (kept c) l l.
Proof. induction l; constructor; [repeat split; auto | assumption]. Qed.

Lemma Forall2_kept_alter (c : call) (f : ApiKeyInfo -> ApiKeyInfo)
    (l : list ApiKeyInfo) (r : nat) :
  (forall k, kept c k (f k)) -> Forall2 (kept c) l (alter f r l).
Proof.
  intros Hf. revert r. induction l as [|x l IH]; intros [|r]; simpl.
  - constructor.
  - constructor.
  - constructor; [apply Hf | apply Forall2_kept_refl].
  - constructor; [repeat split; auto | apply IH].
Qed.

Lemma Forall2_kept_map (c : call) (f : ApiKeyInfo -> ApiKeyInfo) (l : list ApiKeyInfo) :
  (forall k, kept c k (f k)) -> Forall2 (kept c) l (List.map f l).
Proof. intros Hf. induction l; simpl; constructor; auto. Qed.

Lemma kept_set_lastUsed (c : call) (d : option Date) (k : ApiKeyInfo) :
  kept c k (set_lastUsed d k).
Proof. repeat split; auto. Qed.

(** Closes the case of a call that leaves the receiver as it was. *)
Ltac receiver_unchanged :=
  split; [apply Forall2_kept_refl | split; [now left | reflexivity]].

Lemma getCurrentApiKey_kept (c : call) (now : Date) (this : ApiKeyManager) :
  Forall2 (kept c) (apiKeys this) (apiKeys (snd (getCurrentApiKey now this)))
  /\ currentIndex (snd (getCurrentApiKey now this)) = currentIndex this
  /\ config (snd (getCurrentApiKey now this)) = config this.
Proof.
  destruct (getActiveKeys this) eqn:Ha.
  - rewrite (getCurrentApiKey_none now this Ha). simpl.
    split; [apply Forall2_kept_refl | split; reflexivity].
  - destruct (getCurrentApiKey_some now this) as (r & k & _ & _ & Heq); [congruence|].
    rewrite Heq. simpl. split; [|split; reflexivity].
    apply Forall2_kept_alter. intros x. apply kept_set_lastUsed.
Qed.

Lemma rotateApiKey_kept (c : call) (now : Date) (u : Q) (this : ApiKeyManager) :
  Forall2 (kept c) (apiKeys this) (apiKeys (snd (rotateApiKey now u this)))
  /\ (currentIndex (snd (rotateApiKey now u this)) = currentIndex this
      \/ exists k, In k (active_subset this)
           /\ currentIndex (snd (rotateApiKey now u this)) = index k)
  /\ config (snd (rotateApiKey now u this)) = config this.
Proof.
  destruct (rotateApiKey_cases now u this)
    as [[_ Heq] | [[_ Heq] | (k0 & r & k & Hin0 & _ & _ & _ & Heq)]];
    rewrite Heq; simpl.
  - receiver_unchanged.
  - receiver_unchanged.
  - split; [|split; [|reflexivity]].
    + apply Forall2_kept_alter. intros x. apply kept_set_lastUsed.
    + right. exists (snd k0). split; [|reflexivity].
      apply In_active_subset. exists (fst k0). now destruct k0.
Qed.

Lemma reportError_kept (error : jsstring) (this : ApiKeyManager) :
  Forall2 (kept (call_reportError error)) (apiKeys this)
    (apiKeys (snd (reportError error this)))
  /\ currentIndex (snd (reportError error this)) = currentIndex this
  /\ config (snd (reportError error this)) = config this.
Proof.
  rewrite reportError_cases.
  destruct (current_credential this) as [[r k]|] eqn:Hc; simpl.
  - split; [|split; reflexivity].
    apply current_credential_Some in Hc as [Hr _].
    rewrite <- (alter_lookup (fun _ => charged (maxErrorsPerKey (config this)) error k) _ _ _ Hr).
    revert r Hr. induction (apiKeys this) as [|x l IH]; intros [|r] Hr;
      simpl in *; try discriminate.
    + injection Hr as ->. constructor; [|apply Forall2_kept_refl].
      repeat split; simpl; auto; discriminate.
    + constructor; [repeat split; auto | now apply IH].
  - split; [apply Forall2_kept_refl | split; reflexivity].
Qed.

(** Every call keeps the keys and the [index] values of the table, keeps
    every active object active unless it is [reportError], keeps the
    configuration, and unless it is [rotateApiKey] keeps [currentIndex];
    a rotation moves [currentIndex] to the [index] of an active object. *)
Lemma state_after_kept (c : call) (this : ApiKeyManager) :
  Forall2 (kept c) (apiKeys this) (apiKeys (state_after c this))
  /\ (currentIndex (state_after c this) = currentIndex this
      \/ is_rotate c = true
         /\ exists k, In k (active_subset this)
              /\ currentIndex (state_after c this) = index k)
  /\ config (state_after c this) = config this.
Proof.
  destruct c as [now| |now u|error| | | | |s]; simpl.
  - destruct (getCurrentApiKey_kept (call_getCurrentApiKey now) now this) as (H1 & H2 & H3).
    split; [exact H1 | split; [now left | exact H3]].
  - rewrite getCurrentApiKeyInfo_state.
    receiver_unchanged.
  - destruct (rotateApiKey_kept (call_rotateApiKey now u) now u this) as (H1 & H2 & H3).
    split; [exact H1 | split; [|exact H3]].
    destruct H2 as [H2 | H2]; [now left | right; split; [reflexivity | exact H2]].
  - destruct (reportError_kept error this) as (H1 & H2 & H3).
    split; [exact H1 | split; [now left | exact H3]].
  - receiver_unchanged.
  - receiver_unchanged.
  - receiver_unchanged.
  - split; [|split; [now left | reflexivity]].
    apply Forall2_kept_map. intros k. repeat split; auto.
  - receiver_unchanged.
Qed.

Lemma run_invariant (P : ApiKeyManager -> Prop) :
  (forall c this, P this -> P (state_after c this)) ->
  forall cs this, P this -> P (run cs this).
Proof.
  intros Hstep cs. unfold run.
  induction cs as [|c cs IH]; intros this HP; simpl; [exact HP|].
  apply IH, Hstep, HP.
Qed.

Lemma constructor_Return (raw : jsstring) (cfg : PartialConfig) (m : ApiKeyManager) :
  constructor raw cfg = Return m ->
  segments raw <> []
  /\ m = mkApiKeyManager
           (imap (fun index key => mkApiKeyInfo key (Z.of_nat index) true 0 None None)
              (segments raw))
           0 (merge_config cfg).
Proof.
  rewrite constructor_cases. destruct (all_whitespace raw); [discriminate|].
  destruct (segments raw) as [|s l]; [discriminate|].
  intros H. injection H as <-. split; [discriminate | reflexivity].
Qed.

Lemma constructor_fresh_table (raw : jsstring) (cfg : PartialConfig) (m : ApiKeyManager) :
  constructor raw cfg = Return m ->
  indexed m
  /\ Forall (fun k => errorCount k = 0 /\ isActive k = true
                      /\ lastUsed k = None /\ lastError k = None) (apiKeys m)
  /\ currentIndex m = 0
  /\ (0 < length (apiKeys m))%nat.
Proof.
  intros H. apply constructor_Return in H as [Hne ->].
  destruct (imap_fresh_keys (segments raw) 0) as (_ & Hi & Hf).
  simpl in Hi, Hf. unfold indexed. simpl. rewrite length_imap.
  repeat split; try assumption.
  destruct (segments raw); [congruence | simpl; lia].
Qed.

Lemma threshold_set_lastUsed (this : ApiKeyManager) (d : option Date) (r : nat) :
  deactivated_over_threshold this ->
  Forall (fun k => isActive k = false -> maxErrorsPerKey (config this) <= errorCount k)
    (alter (set_lastUsed d) r (apiKeys this)).
Proof. intros H. apply Forall_alter; [exact H|]. intros k _ Hk. exact Hk. Qed.

Lemma threshold_charged (max : Z) (error : jsstring) (k : ApiKeyInfo) :
  (isActive k = false -> max <= errorCount k) ->
  (isActive (charged max error k) = false <-> max <= errorCount k + 1).
Proof.
  intros Hk. unfold charged. simpl.
  destruct (Z.leb_spec max (errorCount k + 1)) as [Hle | Hgt]; [tauto|].
  split; [intros Hi; apply Hk in Hi; lia | lia].
Qed.

Lemma deactivated_over_threshold_step (c : call) (this : ApiKeyManager) :
  deactivated_over_threshold this -> deactivated_over_threshold (state_after c this).
Proof.
  intros H. unfold deactivated_over_threshold.
  destruct c as [now| |now u|error| | | | |s]; simpl; try exact H.
  - destruct (getActiveKeys this) eqn:Ha.
    + now rewrite (getCurrentApiKey_none now this Ha).
    + destruct (getCurrentApiKey_some now this) as (r & k & _ & _ & Heq); [congruence|].
      rewrite Heq. simpl. now apply threshold_set_lastUsed.
  - now rewrite getCurrentApiKeyInfo_state.
  - destruct (rotateApiKey_cases now u this)
      as [[_ Heq] | [[_ Heq] | (k0 & r & k & _ & _ & _ & _ & Heq)]];
      rewrite Heq; simpl; try exact H. now apply threshold_set_lastUsed.
  - rewrite reportError_cases.
    destruct (current_credential this) as [[r k]|] eqn:Hc; simpl; [|exact H].
    apply current_credential_Some in Hc as [Hr _].
    apply Forall_insert; [exact H|].
    intros Hi. apply threshold_charged in Hi; [|exact (Forall_lookup_1 _ _ _ _ H Hr)].
    simpl. lia.
  - apply List.Forall_forall. intros k Hk.
    apply in_map_iff in Hk as (k0 & <- & _). simpl. discriminate.
Qed.

Lemma constructor_over_threshold (raw : jsstring) (cfg : PartialConfig)
    (m0 : ApiKeyManager) (cs : list call) :
  constructor raw cfg = Return m0 -> deactivated_over_threshold (run cs m0).
Proof.
  intros Hm. apply run_invariant; [apply deactivated_over_threshold_step|].
  destruct (constructor_fresh_table raw cfg m0 Hm) as (_ & Hf & _).
  eapply Forall_impl; [exact Hf|]. simpl. intros k (_ & Ha & _) Hi. congruence.
Qed.

(** C2: when some credential has [index] equal to [currentIndex],
    [reportError(message)] returns and changes exactly the first such
    credential: its [errorCount] grows by one, its [lastError] becomes
    [message], its [active] flag is set to [false] when the new
    [errorCount] reaches or exceeds [maxErrorsPerKey] and is left as it
    was otherwise; an already inactive credential gets the increment and
    stays inactive.  In every state reached from a construction the flag
    is therefore [false] after the call exactly when the new [errorCount]
    reaches or exceeds [maxErrorsPerKey].  No other method call, and not
    construction, makes an active credential inactive. *)
Theorem reportError_spec (error : jsstring) (this : ApiKeyManager) :
  ((exists k, In k (apiKeys this) /\ index k = currentIndex this) ->
   exists r k,
     current_credential this = Some (r, k)
     /\ apiKeys this !! r = Some k
     /\ index k = currentIndex this
     /\ reportError error this
        = (Return tt,
           set_apiKeys
             (<[r := charged (maxErrorsPerKey (config this)) error k]> (apiKeys this)) this)
     /\ apiKeys (snd (reportError error this)) !! r
        = Some (charged (maxErrorsPerKey (config this)) error k)
     /\ (forall j, j <> r ->
         apiKeys (snd (reportError error this)) !! j = apiKeys this !! j)
     /\ errorCount (charged (maxErrorsPerKey (config this)) error k) = errorCount k + 1
     /\ lastError (charged (maxErrorsPerKey (config this)) error k) = Some error
     /\ (maxErrorsPerKey (config this) <= errorCount k + 1 ->
         isActive (charged (maxErrorsPerKey (config this)) error k) = false)
     /\ (errorCount k + 1 < maxErrorsPerKey (config this) ->
         isActive (charged (maxErrorsPerKey (config this)) error k) = isActive k)
     /\ (isActive k = false ->
         isActive (charged (maxErrorsPerKey (config this)) error k) = false))
  /\ (forall raw cfg m0 cs r k,
        constructor raw cfg = Return m0 -> this = run cs m0 ->
        current_credential this = Some (r, k) ->
        (isActive (charged (maxErrorsPerKey (config this)) error k) = false
         <-> maxErrorsPerKey (config this) <= errorCount k + 1))
  /\ (forall c, is_reportError c = false ->
      forall r k, apiKeys this !! r = Some k -> isActive k = true ->
      exists k', apiKeys (state_after c this) !! r = Some k' /\ isActive k' = true)
  /\ (forall raw cfg m, constructor raw cfg = Return m ->
      Forall (fun k => isActive k = true) (apiKeys m)).
Proof.
  split; [|split; [|split]].
  - intros Hex. destruct (current_credential_exists this Hex) as (r & k & Hc).
    exists r, k. destruct (current_credential_Some this r k Hc) as [Hr Hi].
    rewrite reportError_cases, Hc. simpl.
    split; [reflexivity|]. split; [exact Hr|]. split; [exact Hi|].
    split; [reflexivity|]. split.
    { apply list_lookup_insert_eq. eapply lookup_lt_Some. exact Hr. }
    split.
    { intros j Hj. apply list_lookup_insert_ne. congruence. }
    split; [reflexivity|]. split; [reflexivity|]. split; [|split].
    + intros Hmax. destruct (Z.leb_spec (maxErrorsPerKey (config this)) (errorCount k + 1));
        [reflexivity | lia].
    + intros Hmax. destruct (Z.leb_spec (maxErrorsPerKey (config this)) (errorCount k + 1));
        [lia | reflexivity].
    + intros ->. destruct (maxErrorsPerKey (config this) <=? errorCount k + 1); reflexivity.
  - intros raw cfg m0 cs r k Hm -> Hc.
    apply threshold_charged. apply current_credential_Some in Hc as [Hr _].
    exact (Forall_lookup_1 _ _ _ _ (constructor_over_threshold raw cfg m0 cs Hm) Hr).
  - intros c Hc r k Hr Hk.
    destruct (state_after_kept c this) as (Hkept & _ & _).
    destruct (Forall2_lookup_l _ _ _ _ _ Hkept Hr) as (k' & Hr' & _ & _ & Ha).
    exists k'. split; [exact Hr' | now apply Ha].
  - intros raw cfg m Hm.
    destruct (constructor_fresh_table raw cfg m Hm) as (_ & Hf & _).
    eapply Forall_impl; [exact Hf|]. simpl. tauto.
Qed.

Lemma reportError_spec_witness :
  exists r k,
    apiKeys (snd (reportError (js "boom") (fresh "k1;k2;k3" emptyConfig))) !! r = Some k
    /\ errorCount k = 1.
Proof.
  destruct (reportError_spec (js "boom") (fresh "k1;k2;k3" emptyConfig)) as [H _].
  destruct H as (r & k & _ & Hr & _ & _ & Hr' & _ & Hcount & _).
  - eexists. split; [left; reflexivity | reflexivity].
  - exists r. eexists. split; [exact Hr'|]. rewrite Hcount.
    revert Hr. destruct r as [|[|[|r]]]; vm_compute; intros H; now inversion H.
Defined.

(** ** currentIndex *)

Lemma find_all_false {A} (p : A -> bool) (l : list A) :
  (forall x, In x l -> p x = false) -> List.find p l = None.
Proof.
  induction l as [|x l IH]; simpl; intros Hp; [reflexivity|].
  rewrite (Hp x) by now left. apply IH. intros y Hy. apply Hp. now right.
Qed.

Lemma fallback_to_first (this : ApiKeyManager) (activeKeys : list objref) :
  (forall k, In k activeKeys -> index (snd k) <> currentIndex this) ->
  find_current_or_first this activeKeys = at_index activeKeys 0.
Proof.
  intros Hno. unfold find_current_or_first. rewrite find_all_false; [reflexivity|].
  intros k Hk. apply Hno in Hk. lia.
Qed.

Lemma find_position_same_index (i : Z) (n : nat) (l l' : list ApiKeyInfo) :
  Forall2 (fun k k' => index k' = index k) l l' ->
  option_map fst (List.find (fun k : objref => index (snd k) =? i) (enumerate_from n l'))
  = option_map fst (List.find (fun k : objref => index (snd k) =? i) (enumerate_from n l)).
Proof.
  intros H. revert n. induction H as [|k k' l l' Hk _ IH]; intros n; simpl; [reflexivity|].
  rewrite Hk. destruct (index k =? i); [reflexivity | apply IH].
Qed.

Lemma current_credential_after_stamp (this : ApiKeyManager) (now : Date)
    (r r1 : nat) (k : ApiKeyInfo) :
  current_credential this = Some (r, k) -> r1 <> r ->
  current_credential
    (set_apiKeys (alter (set_lastUsed (Some now)) r1 (apiKeys this)) this)
  = Some (r, k).
Proof.
  intros Hc Hne. pose proof Hc as Hc0. unfold current_credential, objects in *. simpl.
  assert (Hsame : Forall2 (fun k k' => index k' = index k) (apiKeys this)
                    (alter (set_lastUsed (Some now)) r1 (apiKeys this))).
  { eapply Forall2_impl; [apply (Forall2_kept_alter call_getAllApiKeysStatus)|].
    - intros x. apply kept_set_lastUsed.
    - intros x y (_ & Hi & _). exact Hi. }
  pose proof (find_position_same_index (currentIndex this) 0 _ _ Hsame) as Hpos.
  rewrite Hc in Hpos. simpl in Hpos.
  destruct (List.find _ (enumerate_from 0 (alter _ r1 (apiKeys this))))
    as [[r' k']|] eqn:Hf; [|discriminate].
  simpl in Hpos. injection Hpos as ->.
  apply find_some in Hf as [Hin _]. apply In_enumerate_from in Hin as [_ Hin].
  rewrite Nat.sub_0_r, list_lookup_alter_ne in Hin by exact Hne.
  apply (current_credential_Some this) in Hc0 as [Hr _]. congruence.
Qed.

(** C9: only [rotateApiKey()] (and construction) assigns [currentIndex]:
    every other call leaves it as it was.  In particular, in a state
    where no active credential has [index] equal to [currentIndex], so
    that [getCurrentApiKey()] falls back to the first active credential,
    [currentIndex] is not moved to that credential, and an error reported
    next is charged to the credential that [currentIndex] designates, not
    to the one whose key was returned. *)
Theorem currentIndex_frame (this : ApiKeyManager) :
  (forall c, is_rotate c = false ->
     currentIndex (state_after c this) = currentIndex this)
  /\ (forall now error r k r1 k1 rest,
        current_credential this = Some (r, k) ->
        (forall k', In k' (active_subset this) -> index k' <> currentIndex this) ->
        getActiveKeys this = (r1, k1) :: rest ->
        let this1 := snd (getCurrentApiKey now this) in
        let this2 := snd (reportError error this1) in
        fst (getCurrentApiKey now this) = Return (key k1)
        /\ currentIndex this1 = currentIndex this
        /\ r1 <> r
        /\ apiKeys this1 !! r1 = Some (set_lastUsed (Some now) k1)
        /\ apiKeys this1 !! r = Some k
        /\ current_credential this1 = Some (r, k)
        /\ currentIndex this2 = currentIndex this
        /\ apiKeys this2 !! r = Some (charged (maxErrorsPerKey (config this)) error k)
        /\ apiKeys this2 !! r1 = Some (set_lastUsed (Some now) k1)).
Proof.
  split.
  - intros c Hc. destruct (state_after_kept c this) as (_ & [H | [H _]] & _);
      [exact H | congruence].
  - intros now error r k r1 k1 rest Hc Hno Ha this1 this2.
    assert (Hin1 : In (r1, k1) (getActiveKeys this)) by (rewrite Ha; now left).
    assert (Hne : r1 <> r).
    { intros ->. apply In_getActiveKeys in Hin1 as [Hr1 Hact].
      destruct (current_credential_Some this r k Hc) as [Hr Hi].
      assert (k1 = k) by congruence. subst k1.
      apply (Hno k); [|exact Hi]. apply In_active_subset. exists r.
      now apply In_getActiveKeys. }
    assert (Hfb : find_current_or_first this (getActiveKeys this) = Some (r1, k1)).
    { rewrite fallback_to_first; [now rewrite Ha|].
      intros [r' k'] Hk'. simpl. apply Hno, In_active_subset. now exists r'. }
    destruct (getCurrentApiKey_some now this) as (r' & k' & Hf & _ & Heq); [congruence|].
    rewrite Hfb in Hf. injection Hf as <- <-.
    assert (Hr1 : apiKeys this !! r1 = Some k1).
    { now apply In_getActiveKeys in Hin1 as [Hr1 _]. }
    destruct (current_credential_Some this r k Hc) as [Hr _].
    assert (Hc1 : current_credential this1 = Some (r, k)).
    { subst this1. rewrite Heq. simpl. now apply current_credential_after_stamp. }
    assert (Hl1 : apiKeys this1 !! r1 = Some (set_lastUsed (Some now) k1)).
    { subst this1. rewrite Heq. simpl. now rewrite list_lookup_alter_eq, Hr1. }
    assert (Hl : apiKeys this1 !! r = Some k).
    { subst this1. rewrite Heq. simpl. now rewrite list_lookup_alter_ne. }
    assert (Hcfg : config this1 = config this).
    { subst this1. now rewrite Heq. }
    assert (Hci : currentIndex this1 = currentIndex this).
    { subst this1. now rewrite Heq. }
    split; [now rewrite Heq|]. split; [exact Hci|]. split; [exact Hne|].
    split; [exact Hl1|]. split; [exact Hl|]. split; [exact Hc1|].
    subst this2. rewrite reportError_cases, Hc1, Hcfg. simpl.
    split; [exact Hci|]. split.
    + apply list_lookup_insert_eq. eapply lookup_lt_Some. exact Hl.
    + rewrite list_lookup_insert_ne by congruence. exact Hl1.
Qed.

Lemma currentIndex_frame_witness :
  fst (getCurrentApiKey 9
         (run [call_reportError (js "e1"); call_reportError (js "e2");
               call_reportError (js "e3")] (fresh "k1;k2;k3" emptyConfig)))
  = Return (js "k2")
  /\ currentIndex
       (snd (getCurrentApiKey 9
         (run [call_reportError (js "e1"); call_reportError (js "e2");
               call_reportError (js "e3")] (fresh "k1;k2;k3" emptyConfig))))
     = 0.
Proof.
  destruct (currentIndex_frame
              (run [call_reportError (js "e1"); call_reportError (js "e2");
                    call_reportError (js "e3")] (fresh "k1;k2;k3" emptyConfig)))
    as [_ H].
  edestruct (H 9 (js "e4")) as (Hret & Hcur & _).
  - vm_compute. reflexivity.
  - vm_compute. intros k' [<- | [<- | []]]; discriminate.
  - vm_compute. reflexivity.
  - split; [exact Hret | exact Hcur].
Defined.

(** ** Index stability *)

Lemma kept_map_index (c : call) (l l' : list ApiKeyInfo) :
  Forall2 (kept c) l l' -> List.map index l' = List.map index l.
Proof.
  induction 1 as [|k k' l l' (_ & Hi & _) _ IH]; simpl; [reflexivity|].
  now rewrite Hi, IH.
Qed.

Lemma kept_map_key (c : call) (l l' : list ApiKeyInfo) :
  Forall2 (kept c) l l' -> List.map key l' = List.map key l.
Proof.
  induction 1 as [|k k' l l' (Hk & _) _ IH]; simpl; [reflexivity|].
  now rewrite Hk, IH.
Qed.

Lemma In_active_subset_table (k : ApiKeyInfo) (this : ApiKeyManager) :
  In k (active_subset this) -> In k (apiKeys this) /\ isActive k = true.
Proof. unfold active_subset. now rewrite filter_In. Qed.

Lemma index_in_range (n : nat) (l : list ApiKeyInfo) (k : ApiKeyInfo) :
  List.map index l = List.map Z.of_nat (seq 0 n) -> In k l ->
  0 <= index k < Z.of_nat n.
Proof.
  intros Hmap Hin. apply (in_map index) in Hin. rewrite Hmap in Hin.
  apply in_map_iff in Hin as (j & <- & Hj). apply in_seq in Hj. lia.
Qed.

Lemma index_invariant_step (n : nat) (c : call) (this : ApiKeyManager) :
  index_invariant n this -> index_invariant n (state_after c this).
Proof.
  intros [Hmap Hcur].
  destruct (state_after_kept c this) as (Hkept & Hci & _).
  split.
  - now rewrite (kept_map_index c _ _ Hkept).
  - destruct Hci as [-> | (_ & k & Hk & ->)]; [exact Hcur|].
    apply In_active_subset_table in Hk as [Hk _].
    now apply (index_in_range n (apiKeys this)).
Qed.

Lemma index_invariant_indexed (n : nat) (this : ApiKeyManager) :
  index_invariant n this -> indexed this /\ length (apiKeys this) = n.
Proof.
  intros [Hmap _]. assert (Hlen : length (apiKeys this) = n).
  { apply (f_equal (@length Z)) in Hmap.
    now rewrite !length_map, length_seq in Hmap. }
  split; [|exact Hlen]. unfold indexed. now rewrite Hlen.
Qed.

(** C8: in every state reached from a successful construction with [N]
    credentials by any sequence of calls of the public methods, the
    [index] values of the table are exactly [0, ..., N-1], each once and
    in table order, the keys are the ones parsed, and [currentIndex] is
    one of these indices. *)
Theorem index_stability (raw : jsstring) (cfg : PartialConfig)
    (m0 : ApiKeyManager) (cs : list call) :
  constructor raw cfg = Return m0 ->
  let N := length (apiKeys m0) in
  N = length (segments raw)
  /\ List.map index (apiKeys (run cs m0)) = List.map Z.of_nat (seq 0 N)
  /\ Permutation (List.map index (apiKeys (run cs m0))) (List.map Z.of_nat (seq 0 N))
  /\ length (apiKeys (run cs m0)) = N
  /\ List.map key (apiKeys (run cs m0)) = segments raw
  /\ 0 <= currentIndex (run cs m0) < Z.of_nat N
  /\ In (currentIndex (run cs m0)) (List.map index (apiKeys (run cs m0))).
Proof.
  intros Hm N.
  destruct (constructor_fresh_table raw cfg m0 Hm) as (Hidx & _ & Hcur & Hpos).
  assert (Hinv0 : index_invariant N m0).
  { split; [exact Hidx | subst N; lia]. }
  pose proof (run_invariant _ (index_invariant_step N) cs m0 Hinv0) as [Hmap Hci].
  assert (Hkeys : List.map key (apiKeys (run cs m0)) = List.map key (apiKeys m0)).
  { apply (run_invariant (fun m => List.map key (apiKeys m) = List.map key (apiKeys m0)));
      [|reflexivity].
    intros c this <-. destruct (state_after_kept c this) as (Hk & _).
    now apply (kept_map_key c). }
  assert (Hseg : List.map key (apiKeys m0) = segments raw).
  { apply constructor_Return in Hm as [_ ->]. simpl.
    now destruct (imap_fresh_keys (segments raw) 0) as (Hk & _). }
  split; [subst N; now rewrite <- Hseg, length_map|].
  split; [exact Hmap|]. split; [now rewrite Hmap|].
  split; [now apply (index_invariant_indexed N (run cs m0))|].
  split; [now rewrite Hkeys|]. split; [exact Hci|].
  rewrite Hmap. apply in_map_iff. exists (Z.to_nat (currentIndex (run cs m0))).
  split; [lia | apply in_seq; lia].
Qed.

Lemma index_stability_witness :
  List.map index
    (apiKeys (run [call_rotateApiKey 1 (1 # 3); call_reportError (js "e");
                   call_resetErrorCounts; call_getCurrentApiKey 2]
                (fresh "k1;k2;k3" emptyConfig)))
  = [0; 1; 2].
Proof.
  destruct (index_stability (js "k1;k2;k3") emptyConfig (fresh "k1;k2;k3" emptyConfig)
              [call_rotateApiKey 1 (1 # 3); call_reportError (js "e");
               call_resetErrorCounts; call_getCurrentApiKey 2])
    as (_ & H & _).
  - vm_compute. reflexivity.
  - exact H.
Defined.

(** ** The least-errors strategy *)

Lemma lookup_map {A B} (f : A -> B) (l : list A) (r : nat) :
  List.map f l !! r = option_map f (l !! r).
Proof.
  revert r. induction l as [|x l IH]; intros [|r]; simpl; try reflexivity. apply IH.
Qed.

Lemma indexed_lookup (this : ApiKeyManager) (r : nat) (k : ApiKeyInfo) :
  indexed this -> apiKeys this !! r = Some k -> index k = Z.of_nat r.
Proof.
  intros Hidx Hr. pose proof (lookup_lt_Some _ _ _ Hr) as Hlt.
  apply (f_equal (fun l => l !! r)) in Hidx.
  rewrite !lookup_map, Hr, lookup_seq_lt in Hidx by exact Hlt.
  simpl in Hidx. now injection Hidx.
Qed.

Lemma enumerate_from_sorted (n : nat) (l : list ApiKeyInfo) :
  StronglySorted (fun a b : objref => (fst a < fst b)%nat) (enumerate_from n l).
Proof.
  revert n. induction l as [|x l IH]; intros n; simpl; constructor; [apply IH|].
  apply List.Forall_forall. intros [r k] Hin.
  apply In_enumerate_from in Hin as [Hle _]. simpl. lia.
Qed.

Lemma filter_sorted {A} (R : A -> A -> Prop) (p : A -> bool) (l : list A) :
  StronglySorted R l -> StronglySorted R (List.filter p l).
Proof.
  induction 1 as [|x l Hs IH Hx]; simpl; [constructor|].
  destruct (p x); [|exact IH]. constructor; [exact IH|].
  apply List.Forall_forall. intros y Hy. apply filter_In in Hy as [Hy _].
  rewrite List.Forall_forall in Hx. now apply Hx.
Qed.

Lemma getActiveKeys_sorted (this : ApiKeyManager) :
  StronglySorted (fun a b : objref => (fst a < fst b)%nat) (getActiveKeys this).
Proof. apply filter_sorted, enumerate_from_sorted. Qed.

(** The head of the stably sorted array has the least error count and,
    among the elements with that count, the least position. *)
Lemma sort_head_least (l : list objref) (x : objref) :
  StronglySorted (fun a b : objref => (fst a < fst b)%nat) l ->
  at_index (sort (fun a b : objref => errorCount (snd a) - errorCount (snd b)) l) 0
  = Some x ->
  forall y, In y l ->
    errorCount (snd x) < errorCount (snd y)
    \/ (errorCount (snd x) = errorCount (snd y) /\ (fst x <= fst y)%nat).
Proof.
  intros Hs. revert x. induction Hs as [|a l Hs IH Ha]; intros x Hx y Hy; [destruct Hy|].
  simpl in Hx.
  destruct (sort (fun a b : objref => errorCount (snd a) - errorCount (snd b)) l)
    as [|z s] eqn:Hsort.
  - apply sort_nil in Hsort. subst l. simpl in Hx. injection Hx as <-.
    destruct Hy as [<- | []]. right. split; [reflexivity | lia].
  - specialize (IH z eq_refl). simpl in Hx.
    rewrite List.Forall_forall in Ha.
    destruct (Z.leb_spec (errorCount (snd a) - errorCount (snd z)) 0) as [Hle | Hgt];
      simpl in Hx; injection Hx as <-.
    + destruct Hy as [<- | Hy]; [right; split; [reflexivity | lia]|].
      specialize (Ha y Hy). destruct (IH y Hy) as [Hlt | [Heq Hpos]]; [left; lia|].
      destruct (Z.eq_dec (errorCount (snd a)) (errorCount (snd y))) as [He | Hne];
        [right; split; [exact He | lia] | left; lia].
    + destruct Hy as [<- | Hy]; [left; lia | now apply IH].
Qed.

Lemma find_current_unique (this : ApiKeyManager) (r : nat) (k : ApiKeyInfo) (i : Z) :
  indexed this -> In (r, k) (getActiveKeys this) -> i = index k ->
  find_current_or_first (set_currentIndex i this) (getActiveKeys this) = Some (r, k).
Proof.
  intros Hidx Hin ->. unfold find_current_or_first. simpl.
  destruct (List.find (fun k0 : objref => index (snd k0) =? index k) (getActiveKeys this))
    as [[r' k']|] eqn:Hf.
  - apply find_some in Hf as [Hin' Heq]. simpl in Heq.
    apply In_getActiveKeys in Hin as [Hr _]. apply In_getActiveKeys in Hin' as [Hr' _].
    rewrite (indexed_lookup this r k Hidx Hr), (indexed_lookup this r' k' Hidx Hr') in Heq.
    assert (r' = r) by lia. subst r'. congruence.
  - eapply find_none in Hf; [|exact Hin]. simpl in Hf. lia.
Qed.

Lemma rotateApiKey_least_errors (now : Date) (u : Q) (this : ApiKeyManager) :
  indexed this ->
  rotationStrategy (config this) = least_errors ->
  active_subset this <> [] ->
  exists r k,
    In (r, k) (getActiveKeys this)
    /\ at_index (sort (fun a b : objref => errorCount (snd a) - errorCount (snd b))
                   (getActiveKeys this)) 0 = Some (r, k)
    /\ rotateApiKey now u this
       = (Return (key k),
          mkApiKeyManager (alter (set_lastUsed (Some now)) r (apiKeys this))
            (index k) (config this)).
Proof.
  intros Hidx Hstrat Hne. rewrite <- getActiveKeys_nil in Hne.
  destruct (rotateLeastErrors_ok (getActiveKeys this) this Hne) as ([r k] & Hin & Hat & Heq).
  exists r, k. split; [exact Hin|]. split; [exact Hat|].
  rewrite (rotateApiKey_some now u this Hne).
  unfold rotation_switch, bind, read. rewrite Hstrat, Heq. simpl.
  destruct (getCurrentApiKey_some now (set_currentIndex (index k) this))
    as (r' & k' & Hf & _ & Hg); [exact Hne|].
  rewrite getActiveKeys_set_currentIndex in Hf.
  rewrite (find_current_unique this r k (index k) Hidx Hin eq_refl) in Hf.
  injection Hf as <- <-. exact Hg.
Qed.

Lemma rotateApiKey_least_errors_choice (now : Date) (u : Q) (this : ApiKeyManager) :
  indexed this ->
  rotationStrategy (config this) = least_errors ->
  active_subset this <> [] ->
  exists k,
    In k (active_subset this)
    /\ (forall k', In k' (active_subset this) -> errorCount k <= errorCount k')
    /\ (forall k', In k' (active_subset this) ->
        errorCount k' = errorCount k -> index k <= index k')
    /\ currentIndex (snd (rotateApiKey now u this)) = index k
    /\ fst (rotateApiKey now u this) = Return (key k).
Proof.
  intros Hidx Hstrat Hne.
  destruct (rotateApiKey_least_errors now u this Hidx Hstrat Hne)
    as (r & k & Hin & Hat & Heq).
  pose proof (sort_head_least _ _ (getActiveKeys_sorted this) Hat) as Hleast.
  exists k. split; [apply In_active_subset; now exists r|].
  assert (Hk : index k = Z.of_nat r).
  { apply In_getActiveKeys in Hin as [Hr _]. now apply (indexed_lookup this). }
  split; [|split; [|rewrite Heq; split; reflexivity]].
  - intros k' Hk'. apply In_active_subset in Hk' as [r' Hin'].
    destruct (Hleast _ Hin') as [Hlt | [He _]]; simpl in *; lia.
  - intros k' Hk' He. apply In_active_subset in Hk' as [r' Hin'].
    assert (Hk'i : index k' = Z.of_nat r').
    { apply In_getActiveKeys in Hin' as [Hr' _]. now apply (indexed_lookup this). }
    destruct (Hleast _ Hin') as [Hlt | [_ Hpos]]; simpl in *; lia.
Qed.

(** C5: under the least-errors strategy, [rotateApiKey()] sets
    [currentIndex] to the [index] of an active credential whose
    [errorCount] is the smallest among the active ones and, among the
    active credentials with that [errorCount], the one with the lowest
    [index]; it returns that credential's key.  With active credentials
    at indices 0, 1, 2 whose error counts are 2, 2, 0 it selects index 2. *)
Theorem least_errors_spec (now : Date) (u : Q) (this : ApiKeyManager) :
  indexed this ->
  rotationStrategy (config this) = least_errors ->
  (active_subset this <> [] ->
   exists k,
     In k (active_subset this)
     /\ (forall k', In k' (active_subset this) -> errorCount k <= errorCount k')
     /\ (forall k', In k' (active_subset this) ->
         errorCount k' = errorCount k -> index k <= index k')
     /\ currentIndex (snd (rotateApiKey now u this)) = index k
     /\ fst (rotateApiKey now u this) = Return (key k))
  /\ (forall a b c,
        apiKeys this = [a; b; c] ->
        isActive a = true -> isActive b = true -> isActive c = true ->
        errorCount a = 2 -> errorCount b = 2 -> errorCount c = 0 ->
        index a = 0 /\ index b = 1 /\ index c = 2
        /\ currentIndex (snd (rotateApiKey now u this)) = 2
        /\ fst (rotateApiKey now u this) = Return (key c)).
Proof.
  intros Hidx Hstrat. split.
  - now apply rotateApiKey_least_errors_choice.
  - intros a b c Hl Ha Hb Hc Hea Heb Hec.
    assert (Hact : active_subset this = [a; b; c]).
    { unfold active_subset. rewrite Hl. simpl. now rewrite Ha, Hb, Hc. }
    assert (Hia : index a = 0) by (apply (indexed_lookup this 0%nat a Hidx); now rewrite Hl).
    assert (Hib : index b = 1) by (apply (indexed_lookup this 1%nat b Hidx); now rewrite Hl).
    assert (Hic : index c = 2) by (apply (indexed_lookup this 2%nat c Hidx); now rewrite Hl).
    destruct (rotateApiKey_least_errors_choice now u this Hidx Hstrat)
      as (k & Hin & Hmin & _ & Hcur & Hret); [rewrite Hact; discriminate|].
    assert (Hkc : errorCount k <= errorCount c).
    { apply Hmin. rewrite Hact. simpl. tauto. }
    rewrite Hact in Hin.
    destruct Hin as [<- | [<- | [<- | []]]]; try lia.
    repeat split; try assumption. now rewrite Hcur.
Qed.

Lemma least_errors_spec_witness :
  currentIndex
    (snd (rotateApiKey 5 (1 # 2)
            (run [call_reportError (js "e1"); call_reportError (js "e2");
                  call_rotateApiKey 4 (1 # 2);
                  call_reportError (js "e3"); call_reportError (js "e4")]
               (fresh "k1;k2;k3" (mkPartialConfig (Some least_errors) None None)))))
  = 2.
Proof.
  destruct (least_errors_spec 5 (1 # 2)
              (run [call_reportError (js "e1"); call_reportError (js "e2");
                    call_rotateApiKey 4 (1 # 2);
                    call_reportError (js "e3"); call_reportError (js "e4")]
                 (fresh "k1;k2;k3" (mkPartialConfig (Some least_errors) None None))))
    as [_ H].
  - vm_compute. reflexivity.
  - vm_compute. reflexivity.
  - edestruct H as (_ & _ & _ & Hcur & _);
      [vm_compute; reflexivity | reflexivity .. | exact Hcur].
Defined.

(** ** The round-robin strategy *)

Lemma three_active_step (now : Date) (u : Q) (this : ApiKeyManager) :
  three_active this -> 0 <= currentIndex this < 3 ->
  three_active (snd (rotateApiKey now u this))
  /\ currentIndex (snd (rotateApiKey now u this)) = (currentIndex this + 1) mod 3
  /\ exists k, apiKeys this !! Z.to_nat ((currentIndex this + 1) mod 3) = Some k
       /\ fst (rotateApiKey now u this) = Return (key k).
Proof.
  destruct this as [l i cfg]. intros (a & b & c & Hl & Ha & Hb & Hc & Haa & Hab & Hac & Hs) Hi.
  simpl in *. subst l.
  destruct a as [ka ia aa ea ua la], b as [kb ib ab eb ub lb], c as [kc ic ac ec uc lc].
  destruct cfg as [strat max cool]. simpl in *. subst.
  assert (Hcases : i = 0 \/ i = 1 \/ i = 2) by lia.
  destruct Hcases as [-> | [-> | ->]]; vm_compute;
    (split; [do 3 eexists; repeat split|split; [reflexivity|eexists; split; reflexivity]]).
Qed.

Lemma three_active_run (envs : list (Date * Q)) (this : ApiKeyManager) :
  three_active this -> 0 <= currentIndex this < 3 ->
  currentIndex (run (rotations envs) this)
  = (currentIndex this + Z.of_nat (length envs)) mod 3.
Proof.
  revert this. induction envs as [|[now u] envs IH]; intros this H3 Hi.
  - simpl. rewrite Z.add_0_r, Z.mod_small; lia.
  - destruct (three_active_step now u this H3 Hi) as (H3' & Hci & _).
    change (run (rotations ((now, u) :: envs)) this)
      with (run (rotations envs) (snd (rotateApiKey now u this))).
    rewrite IH; [|exact H3'|rewrite Hci; apply Z.mod_pos_bound; lia].
    rewrite Hci, Zplus_mod_idemp_l. f_equal. simpl length. lia.
Qed.

Lemma constructor_three_active (raw : jsstring) (cfg : PartialConfig) (m : ApiKeyManager) :
  constructor raw cfg = Return m ->
  length (apiKeys m) = 3%nat ->
  rotationStrategy (config m) = round_robin ->
  three_active m /\ currentIndex m = 0.
Proof.
  intros Hm Hlen Hs.
  destruct (constructor_fresh_table raw cfg m Hm) as (Hidx & Hf & Hcur & _).
  split; [|exact Hcur].
  destruct (apiKeys m) as [|a [|b [|c [|d l]]]] eqn:Hl; try discriminate.
  exists a, b, c. split; [exact Hl|].
  assert (Hia : index a = 0) by (apply (indexed_lookup m 0%nat a Hidx); now rewrite Hl).
  assert (Hib : index b = 1) by (apply (indexed_lookup m 1%nat b Hidx); now rewrite Hl).
  assert (Hic : index c = 2) by (apply (indexed_lookup m 2%nat c Hidx); now rewrite Hl).
  inversion Hf as [|? ? (_ & Ha & _) Hf1]; subst.
  inversion Hf1 as [|? ? (_ & Hb & _) Hf2]; subst.
  inversion Hf2 as [|? ? (_ & Hc & _) _]; subst.
  repeat split; assumption.
Qed.

Lemma rotateRoundRobin_absent (this : ApiKeyManager) (k1 : objref) (rest : list objref) :
  (forall k, In k (k1 :: rest) -> index (snd k) <> currentIndex this) ->
  rotateRoundRobin (k1 :: rest) this
  = (Return tt, set_currentIndex (index (snd k1)) this).
Proof.
  intros Hno. unfold rotateRoundRobin, bind, read, findIndex.
  rewrite findIndex_from_none.
  - unfold jsmod. change (-1 + 1) with 0. rewrite Z.rem_0_l; [reflexivity|].
    simpl length. lia.
  - intros k Hk. apply Hno in Hk. lia.
Qed.

Lemma rotateApiKey_absent (now : Date) (u : Q) (this : ApiKeyManager)
    (r1 : nat) (k1 : ApiKeyInfo) (rest : list objref) :
  rotationStrategy (config this) = round_robin ->
  getActiveKeys this = (r1, k1) :: rest ->
  (forall k, In k (getActiveKeys this) -> index (snd k) <> currentIndex this) ->
  rotateApiKey now u this
  = (Return (key k1),
     mkApiKeyManager (alter (set_lastUsed (Some now)) r1 (apiKeys this))
       (index k1) (config this)).
Proof.
  intros Hs Ha Hno.
  rewrite rotateApiKey_some by congruence.
  unfold rotation_switch, bind, read. rewrite Hs, Ha.
  rewrite rotateRoundRobin_absent by (rewrite <- Ha; exact Hno). simpl.
  destruct (getCurrentApiKey_some now (set_currentIndex (index k1) this))
    as (r & k & Hf & _ & Hg).
  { rewrite getActiveKeys_set_currentIndex. congruence. }
  rewrite getActiveKeys_set_currentIndex, Ha in Hf.
  unfold find_current_or_first in Hf. simpl in Hf. rewrite Z.eqb_refl in Hf.
  injection Hf as <- <-. exact Hg.
Qed.

Lemma three_active_visits (envs : list (Date * Q)) (this : ApiKeyManager) :
  three_active this -> 0 <= currentIndex this < 3 ->
  visits (rotations envs) this
  = List.map (fun n => (currentIndex this + Z.of_nat n) mod 3) (seq 1 (length envs)).
Proof.
  revert this. induction envs as [|[now u] envs IH]; intros this H3 Hi; [reflexivity|].
  destruct (three_active_step now u this H3 Hi) as (H3' & Hci & _).
  simpl. f_equal; [exact Hci|].
  rewrite IH; [|exact H3'|rewrite Hci; apply Z.mod_pos_bound; lia].
  rewrite <- (seq_shift (length envs) 1), List.map_map. apply List.map_ext. intros n.
  rewrite Hci, Zplus_mod_idemp_l. f_equal. lia.
Qed.

(** C1: round-robin rotation is deterministic.  For a freshly
    constructed manager with 3 credentials (all active, [currentIndex]
    0), successive [rotateApiKey()] calls set [currentIndex] to 1, 2, 0,
    1, 2, 0, ...: the n-th call leaves it at [n mod 3].  And in any state
    where no active credential has [index] equal to [currentIndex] (and
    some credential is active), a round-robin rotation selects the first
    active credential, which under the index invariant is the active
    credential of lowest [index]. *)
Theorem round_robin_spec :
  (forall raw cfg m0 envs,
     constructor raw cfg = Return m0 ->
     length (apiKeys m0) = 3%nat ->
     rotationStrategy (config m0) = round_robin ->
     currentIndex m0 = 0
     /\ Forall (fun k => isActive k = true) (apiKeys m0)
     /\ visits (rotations envs) m0
        = List.map (fun n => Z.of_nat n mod 3) (seq 1 (length envs))
     /\ currentIndex (run (rotations envs) m0) = Z.of_nat (length envs) mod 3)
  /\ (forall this now u k1 rest,
        rotationStrategy (config this) = round_robin ->
        active_subset this = k1 :: rest ->
        (forall k, In k (active_subset this) -> index k <> currentIndex this) ->
        currentIndex (snd (rotateApiKey now u this)) = index k1
        /\ fst (rotateApiKey now u this) = Return (key k1)
        /\ (indexed this ->
            forall k, In k (active_subset this) -> index k1 <= index k)).
Proof.
  split.
  - intros raw cfg m0 envs Hm Hlen Hs.
    destruct (constructor_three_active raw cfg m0 Hm Hlen Hs) as [H3 Hcur].
    destruct (constructor_fresh_table raw cfg m0 Hm) as (_ & Hf & _).
    split; [exact Hcur|]. split; [eapply Forall_impl; [exact Hf | simpl; tauto]|].
    rewrite three_active_visits, three_active_run by (assumption || lia).
    rewrite Hcur. split; reflexivity.
  - intros this now u k1 rest Hs Hact Hno.
    destruct (getActiveKeys this) as [|[r1 k1'] rest'] eqn:Ha.
    { apply getActiveKeys_nil in Ha. congruence. }
    assert (Hk1 : k1' = k1).
    { pose proof (map_snd_getActiveKeys this) as Hm. rewrite Ha, Hact in Hm.
      simpl in Hm. congruence. }
    subst k1'.
    rewrite (rotateApiKey_absent now u this r1 k1 rest' Hs Ha).
    + simpl. split; [reflexivity|]. split; [reflexivity|].
      intros Hidx k Hk. apply In_active_subset in Hk as [r Hin].
      pose proof (getActiveKeys_sorted this) as Hsorted.
      assert (Hin1 : In (r1, k1) (getActiveKeys this)) by (rewrite Ha; now left).
      apply In_getActiveKeys in Hin1 as [Hr1 _].
      pose proof Hin as Hin'. apply In_getActiveKeys in Hin' as [Hr _].
      rewrite (indexed_lookup this r1 k1 Hidx Hr1), (indexed_lookup this r k Hidx Hr).
      rewrite Ha in Hsorted, Hin. apply StronglySorted_inv in Hsorted as [_ Hall].
      destruct Hin as [Heq | Hin]; [injection Heq as -> _; lia|].
      rewrite List.Forall_forall in Hall. specialize (Hall _ Hin). simpl in Hall. lia.
    + intros [r k] Hk. simpl. apply Hno, In_active_subset. now exists r.
Qed.

Lemma round_robin_spec_witness :
  visits (rotations [(1, 0 # 1); (2, 0 # 1); (3, 0 # 1); (4, 0 # 1); (5, 0 # 1); (6, 0 # 1)])
    (fresh "k1;k2;k3" emptyConfig)
  = [1; 2; 0; 1; 2; 0]
  /\ currentIndex
       (snd (rotateApiKey 9 (0 # 1)
               (run [call_reportError (js "e1"); call_reportError (js "e2");
                     call_reportError (js "e3")] (fresh "k1;k2;k3" emptyConfig))))
     = 1.
Proof.
  destruct round_robin_spec as [Hfresh Habsent]. split.
  - destruct (Hfresh (js "k1;k2;k3") emptyConfig (fresh "k1;k2;k3" emptyConfig)
                [(1, 0 # 1); (2, 0 # 1); (3, 0 # 1); (4, 0 # 1); (5, 0 # 1); (6, 0 # 1)])
      as (_ & _ & Hv & _); [vm_compute; reflexivity ..|].
    rewrite Hv. vm_compute. reflexivity.
  - edestruct (Habsent
                 (run [call_reportError (js "e1"); call_reportError (js "e2");
                       call_reportError (js "e3")] (fresh "k1;k2;k3" emptyConfig))
                 9 (0 # 1)) as (Hcur & _).
    + vm_compute. reflexivity.
    + vm_compute. reflexivity.
    + vm_compute. intros k [<- | [<- | []]]; discriminate.
    + rewrite Hcur. vm_compute. reflexivity.
Defined.

Lemma maskApiKey_spec_witness :
  maskApiKey (js "short") = Return (js "*****")
  /\ maskApiKey (js "0123456789abcdef") = Return (js "01234567****cdef").
Proof.
  split.
  - destruct (maskApiKey_spec (js "short")) as (Hm & _ & Hshort & _).
    rewrite Hm, Hshort; [reflexivity | vm_compute; lia].
  - destruct (maskApiKey_spec (js "0123456789abcdef")) as (Hm & _ & _ & Hlong).
    rewrite Hm, Hlong; [reflexivity | vm_compute; lia].
Defined.

(** * Further properties of the class *)

(** ** Counting *)

Lemma length_getActiveKeys (this : ApiKeyManager) :
  length (getActiveKeys this) = length (active_subset this).
Proof. now rewrite <- map_snd_getActiveKeys, length_map. Qed.

Lemma filter_all_true {A} (p : A -> bool) (l : list A) :
  Forall (fun x => p x = true) l -> List.filter p l = l.
Proof. induction 1 as [|x l Hx _ IH]; simpl; [reflexivity|]. now rewrite Hx, IH. Qed.


Lemma length_filter_worn (l l' : list ApiKeyInfo) :
  Forall2 worn l l' ->
  (length (List.filter isActive l') <= length (List.filter isActive l))%nat.
Proof.
  induction 1 as [|k k' l l' [_ Hk] _ IH]; simpl; [lia|].
  destruct (isActive k') eqn:Hk'; [rewrite (Hk eq_refl)|destruct (isActive k)];
    simpl; lia.
Qed.

(** ** resetErrorCounts *)

Lemma resetErrorCounts_table (this : ApiKeyManager) :
  Forall (fun k => errorCount k = 0 /\ isActive k = true /\ lastError k = None)
    (apiKeys (snd (resetErrorCounts this)))
  /\ Forall2 identity_kept (apiKeys this) (apiKeys (snd (resetErrorCounts this))).
Proof.
  unfold resetErrorCounts, assign. simpl. split.
  - apply List.Forall_forall. intros k Hk. apply in_map_iff in Hk as (k0 & <- & _).
    repeat split.
  - induction (apiKeys this) as [|k l IH]; simpl; constructor; [repeat split | exact IH].
Qed.

(** [resetErrorCounts()] always returns; afterwards every credential has
    [errorCount] 0, is active and has no [lastError], while its key,
    [index] and [lastUsed], [currentIndex] and the configuration are as
    before; the active count equals the total count; and a second reset
    changes nothing. *)
Theorem resetErrorCounts_restores (this : ApiKeyManager) :
  fst (resetErrorCounts this) = Return tt
  /\ Forall (fun k => errorCount k = 0 /\ isActive k = true /\ lastError k = None)
       (apiKeys (snd (resetErrorCounts this)))
  /\ Forall2 identity_kept (apiKeys this) (apiKeys (snd (resetErrorCounts this)))
  /\ currentIndex (snd (resetErrorCounts this)) = currentIndex this
  /\ config (snd (resetErrorCounts this)) = config this
  /\ fst (getActiveKeyCount (snd (resetErrorCounts this))) = fst (getTotalKeyCount this)
  /\ snd (resetErrorCounts (snd (resetErrorCounts this))) = snd (resetErrorCounts this).
Proof.
  destruct (resetErrorCounts_table this) as [Hall Hkept].
  split; [reflexivity|]. split; [exact Hall|]. split; [exact Hkept|].
  split; [reflexivity|]. split; [reflexivity|]. split.
  - unfold getActiveKeyCount, getTotalKeyCount, read. simpl. f_equal. f_equal.
    rewrite length_getActiveKeys. unfold active_subset.
    rewrite filter_all_true.
    + symmetry. eapply Forall2_length. exact Hkept.
    + eapply Forall_impl; [exact Hall|]. simpl. tauto.
  - unfold resetErrorCounts, assign, set_apiKeys. simpl. f_equal.
    rewrite List.map_map. apply List.map_ext. intros k. reflexivity.
Qed.

(** ** Repeated error reports *)

Lemma current_credential_replace (this : ApiKeyManager) (l' : list ApiKeyInfo)
    (r : nat) (k k' : ApiKeyInfo) :
  current_credential this = Some (r, k) ->
  Forall2 (fun a b => index b = index a) (apiKeys this) l' ->
  l' !! r = Some k' ->
  current_credential (set_apiKeys l' this) = Some (r, k').
Proof.
  intros Hc Hsame Hr'. unfold current_credential, objects in *. simpl.
  pose proof (find_position_same_index (currentIndex this) 0 _ _ Hsame) as Hpos.
  rewrite Hc in Hpos. simpl in Hpos.
  destruct (List.find (fun k0 : objref => index (snd k0) =? currentIndex this)
              (enumerate_from 0 l')) as [[r0 k0]|] eqn:Hf; [|discriminate].
  simpl in Hpos. injection Hpos as ->.
  apply find_some in Hf as [Hin _]. apply In_enumerate_from in Hin as [_ Hin].
  rewrite Nat.sub_0_r in Hin. congruence.
Qed.

Lemma same_index_insert (l : list ApiKeyInfo) (r : nat) (k k' : ApiKeyInfo) :
  l !! r = Some k -> index k' = index k ->
  Forall2 (fun a b => index b = index a) l (<[r := k']> l).
Proof.
  revert r. induction l as [|x l IH]; intros [|r] Hr Hi; simpl in *; try discriminate.
  - injection Hr as ->. constructor; [exact Hi|].
    clear. induction l; constructor; auto.
  - constructor; [reflexivity | now apply IH].
Qed.

Lemma reportError_step (error : jsstring) (this : ApiKeyManager) (r : nat) (k : ApiKeyInfo) :
  current_credential this = Some (r, k) ->
  reportError error this
  = (Return tt,
     set_apiKeys (<[r := charged (maxErrorsPerKey (config this)) error k]> (apiKeys this)) this)
  /\ current_credential (snd (reportError error this))
     = Some (r, charged (maxErrorsPerKey (config this)) error k).
Proof.
  intros Hc. rewrite reportError_cases, Hc. split; [reflexivity|]. simpl.
  destruct (current_credential_Some this r k Hc) as [Hr _].
  eapply current_credential_replace; [exact Hc| |].
  - now apply (same_index_insert _ r k).
  - apply list_lookup_insert_eq. eapply lookup_lt_Some. exact Hr.
Qed.

Lemma run_reports (errors : list jsstring) (this : ApiKeyManager) (r : nat) (k : ApiKeyInfo) :
  current_credential this = Some (r, k) ->
  exists k',
    apiKeys (run (reports errors) this) = <[r := k']> (apiKeys this)
    /\ current_credential (run (reports errors) this) = Some (r, k')
    /\ identity_kept k k'
    /\ errorCount k' = errorCount k + Z.of_nat (length errors)
    /\ lastError k' = match last errors with Some e => Some e | None => lastError k end
    /\ isActive k'
       = (if Z.of_nat (length errors) =? 0 then isActive k
          else isActive k
               && (errorCount k + Z.of_nat (length errors) <? maxErrorsPerKey (config this)))
    /\ currentIndex (run (reports errors) this) = currentIndex this
    /\ config (run (reports errors) this) = config this.
Proof.
  revert this k. induction errors as [|e es IH]; intros this k Hc.
  - exists k. destruct (current_credential_Some this r k Hc) as [Hr _]. simpl.
    rewrite list_insert_id by exact Hr. rewrite Z.add_0_r. repeat split; assumption.
  - destruct (reportError_step e this r k Hc) as [Heq Hc1].
    change (run (reports (e :: es)) this)
      with (run (reports es) (snd (reportError e this))).
    assert (Ht1 : apiKeys (snd (reportError e this))
                  = <[r := charged (maxErrorsPerKey (config this)) e k]> (apiKeys this))
      by now rewrite Heq.
    assert (Hci1 : currentIndex (snd (reportError e this)) = currentIndex this)
      by now rewrite Heq.
    assert (Hcfg1 : config (snd (reportError e this)) = config this) by now rewrite Heq.
    destruct (IH _ _ Hc1) as (k' & Htab & Hc' & (Hk1 & Hk2 & Hk3) & Hcount & Hlast & Hact & Hci & Hcfg).
    rewrite Ht1 in Htab. rewrite Hci1 in Hci. rewrite Hcfg1 in Hcfg, Hact.
    simpl in Hcount, Hlast, Hk1, Hk2, Hk3, Hact.
    exists k'. split; [now rewrite Htab, list_insert_insert_eq|].
    split; [exact Hc'|]. split; [repeat split; assumption|].
    split; [rewrite Hcount; simpl length; lia|]. split.
    { rewrite Hlast. destruct es as [|e' es']; [reflexivity|].
      rewrite last_cons_cons. destruct (last (e' :: es')) eqn:Hl; [reflexivity|].
      apply last_None in Hl. discriminate. }
    split; [|split; assumption].
    rewrite Hact. simpl length. rewrite Nat2Z.inj_succ.
    destruct (Z.eqb_spec (Z.of_nat (length es)) 0) as [H0 | Hn0];
      destruct (Z.eqb_spec (Z.succ (Z.of_nat (length es))) 0); try lia.
    + rewrite H0.
      destruct (Z.leb_spec (maxErrorsPerKey (config this)) (errorCount k + 1));
        destruct (Z.ltb_spec (errorCount k + Z.succ 0) (maxErrorsPerKey (config this)));
        try lia; now rewrite ?andb_true_r, ?andb_false_r.
    + destruct (Z.leb_spec (maxErrorsPerKey (config this)) (errorCount k + 1));
        destruct (Z.ltb_spec (errorCount k + 1 + Z.of_nat (length es))
                    (maxErrorsPerKey (config this)));
        destruct (Z.ltb_spec (errorCount k + Z.succ (Z.of_nat (length es)))
                    (maxErrorsPerKey (config this)));
        try lia; now rewrite ?andb_true_r, ?andb_false_r.
Qed.



(** ** Selection of the current key *)

Lemma map_touch_other (f : ApiKeyInfo -> ApiKeyInfo) (r : nat) (l : list objref) :
  (forall k, In k l -> fst k <> r) -> List.map (touch f r) l = l.
Proof.
  induction l as [|[r' k] l IH]; intros Hne; simpl; [reflexivity|].
  rewrite IH by (intros x Hx; apply Hne; now right).
  unfold touch. simpl. destruct (Nat.eqb_spec r' r) as [->|_]; [|reflexivity].
  exfalso. apply (Hne (r, k)); [now left | reflexivity].
Qed.

Lemma enumerate_from_alter (f : ApiKeyInfo -> ApiKeyInfo) (n r : nat) (l : list ApiKeyInfo) :
  enumerate_from n (alter f r l) = List.map (touch f (n + r)) (enumerate_from n l).
Proof.
  revert n r. induction l as [|x l IH]; intros n [|r]; simpl; [reflexivity..| |].
  - unfold touch at 1. simpl. rewrite Nat.add_0_r, Nat.eqb_refl. f_equal.
    symmetry. apply map_touch_other. intros [r' k] Hin.
    apply In_enumerate_from in Hin as [Hle _]. simpl. lia.
  - unfold touch at 1. simpl. destruct (Nat.eqb_spec n (n + S r)); [lia|]. f_equal.
    replace (n + S r)%nat with (S n + r)%nat by lia. apply IH.
Qed.

Lemma getActiveKeys_alter (f : ApiKeyInfo -> ApiKeyInfo) (r : nat) (this : ApiKeyManager) :
  (forall k, isActive (f k) = isActive k) ->
  getActiveKeys (set_apiKeys (alter f r (apiKeys this)) this)
  = List.map (touch f r) (getActiveKeys this).
Proof.
  intros Hf. unfold getActiveKeys, objects. simpl. rewrite enumerate_from_alter. simpl.
  induction (enumerate_from 0 (apiKeys this)) as [|[r' k] l IH]; simpl; [reflexivity|].
  rewrite IH. destruct (Nat.eqb r' r); [rewrite Hf|]; destruct (isActive k); reflexivity.
Qed.

Lemma find_current_or_first_touch (f : ApiKeyInfo -> ApiKeyInfo) (r : nat)
    (this this' : ApiKeyManager) (l : list objref) :
  (forall k, index (f k) = index k) ->
  currentIndex this' = currentIndex this ->
  find_current_or_first this' (List.map (touch f r) l)
  = option_map (touch f r) (find_current_or_first this l).
Proof.
  intros Hf Hci. unfold find_current_or_first. rewrite Hci.
  assert (Hfind : List.find (fun k : objref => index (snd k) =? currentIndex this)
                    (List.map (touch f r) l)
                  = option_map (touch f r)
                      (List.find (fun k : objref => index (snd k) =? currentIndex this) l)).
  { induction l as [|[r' k] l IH]; simpl; [reflexivity|].
    assert (Hi : index (if Nat.eqb r' r then f k else k) = index k)
      by (destruct (Nat.eqb r' r); [apply Hf | reflexivity]).
    rewrite Hi. destruct (index k =? currentIndex this); [reflexivity | exact IH]. }
  rewrite Hfind.
  destruct (List.find (fun k : objref => index (snd k) =? currentIndex this) l);
    [reflexivity|].
  destruct l; reflexivity.
Qed.

Lemma getCurrentApiKey_after_stamp (now now' : Date) (i : Z) (this : ApiKeyManager)
    (r : nat) (k : ApiKeyInfo) :
  find_current_or_first (set_currentIndex i this) (getActiveKeys this) = Some (r, k) ->
  getCurrentApiKey now'
    (mkApiKeyManager (alter (set_lastUsed (Some now)) r (apiKeys this)) i (config this))
  = (Return (key k),
     mkApiKeyManager
       (alter (set_lastUsed (Some now')) r (alter (set_lastUsed (Some now)) r (apiKeys this)))
       i (config this)).
Proof.
  intros Hf.
  set (this1 := mkApiKeyManager (alter (set_lastUsed (Some now)) r (apiKeys this)) i
                  (config this)).
  assert (Ha : getActiveKeys this1
               = List.map (touch (set_lastUsed (Some now)) r) (getActiveKeys this)).
  { apply (getActiveKeys_alter (set_lastUsed (Some now)) r this). reflexivity. }
  assert (Hf1 : find_current_or_first this1 (getActiveKeys this1)
                = Some (r, set_lastUsed (Some now) k)).
  { rewrite Ha.
    rewrite (find_current_or_first_touch _ r (set_currentIndex i this) this1)
      by reflexivity.
    rewrite Hf. unfold touch. simpl. now rewrite Nat.eqb_refl. }
  destruct (getCurrentApiKey_some now' this1) as (r' & k' & Hf' & _ & Heq).
  { intros Hnil. rewrite Hnil in Hf1. discriminate. }
  rewrite Hf1 in Hf'. injection Hf' as <- <-. exact Heq.
Qed.

Lemma getCurrentApiKeyInfo_cases (this : ApiKeyManager) :
  (getActiveKeys this = []
   /\ getCurrentApiKeyInfo this = (Throw (Error "No active API keys available"), this))
  \/ (exists r k,
        find_current_or_first this (getActiveKeys this) = Some (r, k)
        /\ In (r, k) (getActiveKeys this)
        /\ getCurrentApiKeyInfo this = (Return (r, k), this)).
Proof.
  destruct (find_current_or_first this (getActiveKeys this)) as [[r k]|] eqn:Hf.
  - right. exists r, k. split; [reflexivity|].
    assert (Hne : getActiveKeys this <> []).
    { intros Hnil. rewrite Hnil in Hf. discriminate. }
    destruct (find_current_or_first_In this _ Hne) as (x & Hx & Hin).
    split; [congruence|].
    unfold getCurrentApiKeyInfo, bind, read. rewrite length_zero_test.
    destruct (getActiveKeys this) eqn:Ha; [congruence|]. now rewrite Hf.
  - left. destruct (getActiveKeys this) as [|a l] eqn:Ha.
    + split; [reflexivity|]. unfold getCurrentApiKeyInfo, bind, read. now rewrite Ha.
    + unfold find_current_or_first in Hf. simpl in Hf.
      destruct (index (snd a) =? currentIndex this);
        [discriminate|destruct (List.find _ l); discriminate].
Qed.

(** [getCurrentApiKeyInfo()] never changes the manager, and it selects
    the credential [getCurrentApiKey()] selects: when it returns a
    credential, that credential is active and [getCurrentApiKey()]
    returns its key and sets its [lastUsed], touching nothing else; when
    it throws, no credential is active and [getCurrentApiKey()] throws
    the same error. *)
Theorem getCurrentApiKeyInfo_agrees (now : Date) (this : ApiKeyManager) :
  snd (getCurrentApiKeyInfo this) = this
  /\ match fst (getCurrentApiKeyInfo this) with
     | Return (r, k) =>
         apiKeys this !! r = Some k
         /\ isActive k = true
         /\ getCurrentApiKey now this
            = (Return (key k),
               set_apiKeys (<[r := set_lastUsed (Some now) k]> (apiKeys this)) this)
     | Throw e =>
         active_subset this = []
         /\ getCurrentApiKey now this = (Throw e, this)
     end.
Proof.
  split; [apply getCurrentApiKeyInfo_state|].
  destruct (getCurrentApiKeyInfo_cases this) as [[Ha Heq] | (r & k & Hf & Hin & Heq)];
    rewrite Heq; simpl.
  - split; [now apply getActiveKeys_nil | now apply getCurrentApiKey_none].
  - apply In_getActiveKeys in Hin as [Hr Hact]. split; [exact Hr|]. split; [exact Hact|].
    destruct (getCurrentApiKey_some now this) as (r' & k' & Hf' & _ & Hg).
    { intros Hnil. rewrite Hnil in Hf. discriminate. }
    rewrite Hf in Hf'. injection Hf' as <- <-.
    now rewrite Hg, (alter_lookup _ _ _ _ Hr).
Qed.

(** The selection is stable: a [getCurrentApiKey()] call that follows
    another returns (or throws) what the first did, and so does one that
    follows a [rotateApiKey()] call that returned: the key a rotation
    hands out is the key the manager keeps handing out. *)
Theorem current_key_stable (now now' : Date) (u : Q) (this : ApiKeyManager) :
  fst (getCurrentApiKey now' (snd (getCurrentApiKey now this)))
  = fst (getCurrentApiKey now this)
  /\ match fst (rotateApiKey now u this) with
     | Return newKey =>
         fst (getCurrentApiKey now' (snd (rotateApiKey now u this))) = Return newKey
     | Throw _ => snd (rotateApiKey now u this) = this
     end.
Proof.
  split.
  - destruct (getActiveKeys this) as [|a l] eqn:Ha.
    + rewrite (getCurrentApiKey_none now this Ha). simpl.
      now rewrite (getCurrentApiKey_none now' this Ha).
    + destruct (getCurrentApiKey_some now this) as (r & k & Hf & _ & Heq); [congruence|].
      rewrite Heq. simpl.
      pose proof (getCurrentApiKey_after_stamp now now' (currentIndex this) this r k Hf) as H.
      unfold set_apiKeys. now rewrite H.
  - destruct (rotateApiKey_cases now u this)
      as [[_ Heq] | [[_ Heq] | (k0 & r & k & _ & _ & _ & Hf & Heq)]];
      rewrite Heq; simpl; try reflexivity.
    now rewrite (getCurrentApiKey_after_stamp now now' (index (snd k0)) this r k Hf).
Qed.

(** ** Round-robin over any number of credentials *)

Lemma sorted_lookup_lt (l : list objref) (j p : nat) (a b : objref) :
  StronglySorted (fun a b : objref => (fst a < fst b)%nat) l ->
  l !! j = Some a -> l !! p = Some b -> (j < p)%nat -> (fst a < fst b)%nat.
Proof.
  intros Hs. revert j p. induction Hs as [|x l Hs IH Hx]; intros j p Hj Hp Hlt;
    [discriminate|].
  destruct p as [|p]; [lia|]. simpl in Hp. destruct j as [|j]; simpl in Hj.
  - injection Hj as <-. rewrite List.Forall_forall in Hx. apply Hx.
    apply list_elem_of_In. eapply list_elem_of_lookup_2. exact Hp.
  - apply (IH j p); [assumption..|lia].
Qed.

Lemma findIndex_from_first {A} (f : A -> bool) (i : Z) (l : list A) (p : nat) (x : A) :
  l !! p = Some x -> f x = true ->
  (forall j y, (j < p)%nat -> l !! j = Some y -> f y = false) ->
  findIndex_from f i l = i + Z.of_nat p.
Proof.
  revert i p. induction l as [|z l IH]; intros i [|p] Hp Hx Hbefore; simpl in *;
    try discriminate.
  - injection Hp as ->. rewrite Hx. lia.
  - rewrite (Hbefore 0%nat z) by (lia || reflexivity).
    rewrite (IH (i + 1) p Hp Hx); [lia|].
    intros j y Hj Hy. apply (Hbefore (S j) y); [lia | exact Hy].
Qed.

Lemma rotateApiKey_round_robin_next (now : Date) (u : Q) (this : ApiKeyManager)
    (p r : nat) (k : ApiKeyInfo) :
  rotationStrategy (config this) = round_robin ->
  indexed this ->
  getActiveKeys this !! p = Some (r, k) ->
  currentIndex this = index k ->
  exists r' k',
    getActiveKeys this !! ((p + 1) mod length (getActiveKeys this))%nat = Some (r', k')
    /\ rotateApiKey now u this
       = (Return (key k'),
          mkApiKeyManager (alter (set_lastUsed (Some now)) r' (apiKeys this))
            (index k') (config this)).
Proof.
  intros Hs Hidx Hp Hci.
  assert (Hlen : (p < length (getActiveKeys this))%nat) by (eapply lookup_lt_Some; exact Hp).
  assert (Hne : getActiveKeys this <> []).
  { intros Hnil. rewrite Hnil in Hlen. simpl in Hlen. lia. }
  assert (Hq : ((p + 1) mod length (getActiveKeys this) < length (getActiveKeys this))%nat)
    by (apply Nat.mod_upper_bound; lia).
  destruct (lookup_lt_is_Some_2 _ _ Hq) as [[r' k'] Hq'].
  exists r', k'. split; [exact Hq'|].
  assert (Hfi : findIndex (fun k0 : objref => index (snd k0) =? currentIndex this)
                  (getActiveKeys this) = Z.of_nat p).
  { unfold findIndex. rewrite (findIndex_from_first _ 0 _ p (r, k) Hp); [lia| |].
    - simpl. lia.
    - intros j [rj kj] Hj Hlj. simpl.
      pose proof (sorted_lookup_lt _ j p _ _ (getActiveKeys_sorted this) Hlj Hp Hj) as Hr.
      simpl in Hr.
      assert (Hinj : In (rj, kj) (getActiveKeys this)).
      { apply list_elem_of_In. eapply list_elem_of_lookup_2. exact Hlj. }
      assert (Hin : In (r, k) (getActiveKeys this)).
      { apply list_elem_of_In. eapply list_elem_of_lookup_2. exact Hp. }
      apply In_getActiveKeys in Hinj as [Hkj _]. apply In_getActiveKeys in Hin as [Hk _].
      rewrite Hci, (indexed_lookup this r k Hidx Hk), (indexed_lookup this rj kj Hidx Hkj).
      lia. }
  assert (Hnext : jsmod (Z.of_nat p + 1) (Z.of_nat (length (getActiveKeys this)))
                  = Z.of_nat ((p + 1) mod length (getActiveKeys this))).
  { unfold jsmod. rewrite Z.rem_mod_nonneg by lia.
    rewrite Nat2Z.inj_mod. f_equal. lia. }
  assert (Hin' : In (r', k') (getActiveKeys this)).
  { apply list_elem_of_In. eapply list_elem_of_lookup_2. exact Hq'. }
  rewrite (rotateApiKey_some now u this Hne).
  unfold rotation_switch, rotateRoundRobin, bind, read. rewrite Hs. cbv beta iota.
  rewrite Hfi, Hnext. unfold set_currentIndex_from, at_index.
  destruct (Z.ltb_spec (Z.of_nat ((p + 1) mod length (getActiveKeys this))) 0); [lia|].
  rewrite Nat2Z.id, Hq'. unfold assign. cbv beta iota. simpl snd.
  destruct (getCurrentApiKey_some now (set_currentIndex (index k') this))
    as (r0 & k0 & Hf & _ & Hg); [exact Hne|].
  rewrite getActiveKeys_set_currentIndex in Hf.
  rewrite (find_current_unique this r' k' (index k') Hidx Hin' eq_refl) in Hf.
  injection Hf as <- <-. exact Hg.
Qed.

(** Round-robin rotation over any table: when the credential that
    [currentIndex] designates is the [p]-th of the active credentials (in
    table order), [rotateApiKey()] moves to the active credential after
    it, wrapping from the last to the first, and so skips every inactive
    credential; it returns the key of the credential it moved to. *)
Theorem round_robin_next_active (now : Date) (u : Q) (this : ApiKeyManager)
    (p : nat) (k : ApiKeyInfo) :
  rotationStrategy (config this) = round_robin ->
  indexed this ->
  active_subset this !! p = Some k ->
  currentIndex this = index k ->
  exists k',
    active_subset this !! ((p + 1) mod length (active_subset this))%nat = Some k'
    /\ fst (rotateApiKey now u this) = Return (key k')
    /\ currentIndex (snd (rotateApiKey now u this)) = index k'.
Proof.
  intros Hs Hidx Hp Hci. rewrite <- map_snd_getActiveKeys, lookup_map in Hp.
  destruct (getActiveKeys this !! p) as [[r k0]|] eqn:Hp0; [|discriminate].
  simpl in Hp. injection Hp as ->.
  destruct (rotateApiKey_round_robin_next now u this p r k Hs Hidx Hp0 Hci)
    as (r' & k' & Hq & Heq).
  exists k'. rewrite <- length_getActiveKeys, <- map_snd_getActiveKeys, lookup_map, Hq, Heq.
  repeat split.
Qed.

Lemma round_robin_next_active_witness :
  fst (rotateApiKey 9 (0 # 1)
         (run (reports [js "e1"; js "e2"; js "e3"] ++ [call_rotateApiKey 1 (0 # 1);
               call_rotateApiKey 2 (0 # 1)])
            (fresh "k1;k2;k3" emptyConfig)))
  = Return (js "k2").
Proof.
  edestruct (round_robin_next_active 9 (0 # 1)
               (run (reports [js "e1"; js "e2"; js "e3"] ++ [call_rotateApiKey 1 (0 # 1);
                     call_rotateApiKey 2 (0 # 1)])
                  (fresh "k1;k2;k3" emptyConfig)) 1%nat)
    as (k' & Hk' & Hret & _).
  - vm_compute. reflexivity.
  - vm_compute. reflexivity.
  - vm_compute. reflexivity.
  - vm_compute. reflexivity.
  - rewrite Hret. revert Hk'. vm_compute. intros H. now inversion H.
Defined.

(** ** The random strategy *)






(** ** What only a reset undoes *)

Lemma worn_refl (k : ApiKeyInfo) : worn k k.
Proof. split; [lia | auto]. Qed.

Lemma Forall2_worn_refl (l : list ApiKeyInfo) : Forall2 worn l l.
Proof. induction l; constructor; [apply worn_refl | assumption]. Qed.

Lemma Forall2_worn_alter (f : ApiKeyInfo -> ApiKeyInfo) (l : list ApiKeyInfo) (r : nat) :
  (forall k, worn k (f k)) -> Forall2 worn l (alter f r l).
Proof.
  intros Hf. revert r. induction l as [|x l IH]; intros [|r]; simpl; constructor.
  - apply Hf.
  - apply Forall2_worn_refl.
  - apply worn_refl.
  - apply IH.
Qed.

Lemma Forall2_worn_insert (l : list ApiKeyInfo) (r : nat) (k k' : ApiKeyInfo) :
  l !! r = Some k -> worn k k' -> Forall2 worn l (<[r := k']> l).
Proof.
  revert r. induction l as [|x l IH]; intros [|r] Hr Hw; simpl in *; try discriminate.
  - injection Hr as ->. constructor; [exact Hw | apply Forall2_worn_refl].
  - constructor; [apply worn_refl | now apply IH].
Qed.

Lemma worn_charged (max : Z) (error : jsstring) (k : ApiKeyInfo) :
  worn k (charged max error k).
Proof.
  split; simpl; [lia|]. destruct (max <=? errorCount k + 1); [discriminate | auto].
Qed.

Lemma state_after_worn (c : call) (this : ApiKeyManager) :
  is_reset c = false ->
  Forall2 worn (apiKeys this) (apiKeys (state_after c this)).
Proof.
  intros Hc. destruct c as [now| |now u|error| | | | |s]; simpl;
    try apply Forall2_worn_refl; try discriminate.
  - destruct (getActiveKeys this) eqn:Ha.
    + rewrite (getCurrentApiKey_none now this Ha). apply Forall2_worn_refl.
    + destruct (getCurrentApiKey_some now this) as (r & k & _ & _ & Heq); [congruence|].
      rewrite Heq. simpl. apply Forall2_worn_alter. intros x. split; simpl; [lia | auto].
  - rewrite getCurrentApiKeyInfo_state. apply Forall2_worn_refl.
  - destruct (rotateApiKey_cases now u this)
      as [[_ Heq] | [[_ Heq] | (k0 & r & k & _ & _ & _ & _ & Heq)]];
      rewrite Heq; simpl; try apply Forall2_worn_refl.
    apply Forall2_worn_alter. intros x. split; simpl; [lia | auto].
  - rewrite reportError_cases.
    destruct (current_credential this) as [[r k]|] eqn:Hcur; simpl;
      [|apply Forall2_worn_refl].
    apply current_credential_Some in Hcur as [Hr _].
    apply (Forall2_worn_insert _ r k); [exact Hr | apply worn_charged].
Qed.

Lemma run_worn (cs : list call) (this : ApiKeyManager) :
  Forall (fun c => is_reset c = false) cs ->
  Forall2 worn (apiKeys this) (apiKeys (run cs this)).
Proof.
  intros Hcs. revert this. induction Hcs as [|c cs Hc _ IH]; intros this.
  - apply Forall2_worn_refl.
  - change (run (c :: cs) this) with (run cs (state_after c this)).
    eapply Forall2_trans; [|apply (state_after_worn c this Hc)|apply IH].
    intros x y z [H1 H2] [H3 H4]. split; [lia | auto].
Qed.

(** Between resets nothing heals: over any sequence of calls without
    [resetErrorCounts], no credential's [errorCount] decreases, no
    inactive credential becomes active again, and so
    [getActiveKeyCount()] never grows, while [getTotalKeyCount()] stays
    what it was. *)
Theorem no_recovery_without_reset (cs : list call) (this : ApiKeyManager) :
  Forall (fun c => is_reset c = false) cs ->
  Forall2 worn (apiKeys this) (apiKeys (run cs this))
  /\ (exists a a',
        fst (getActiveKeyCount this) = Return a
        /\ fst (getActiveKeyCount (run cs this)) = Return a'
        /\ a' <= a)
  /\ fst (getTotalKeyCount (run cs this)) = fst (getTotalKeyCount this).
Proof.
  intros Hcs. pose proof (run_worn cs this Hcs) as Hw.
  split; [exact Hw|]. split.
  - do 2 eexists. split; [reflexivity|]. split; [reflexivity|].
    rewrite !length_getActiveKeys. unfold active_subset.
    pose proof (length_filter_worn _ _ Hw). lia.
  - unfold getTotalKeyCount, read. simpl. do 2 f_equal. symmetry.
    eapply Forall2_length. exact Hw.
Qed.

Lemma no_recovery_without_reset_witness :
  exists a', fst (getActiveKeyCount
                    (run [call_reportError (js "e1"); call_rotateApiKey 1 (0 # 1);
                          call_getCurrentApiKey 2]
                       (fresh "k1;k2" (mkPartialConfig None (Some 1) None))))
             = Return a'
    /\ a' <= 2.
Proof.
  destruct (no_recovery_without_reset
              [call_reportError (js "e1"); call_rotateApiKey 1 (0 # 1);
               call_getCurrentApiKey 2]
              (fresh "k1;k2" (mkPartialConfig None (Some 1) None)))
    as (_ & (a & a' & Ha & Ha' & Hle) & _).
  - repeat constructor.
  - exists a'. split; [exact Ha'|]. vm_compute in Ha. injection Ha as <-. exact Hle.
Defined.

(** * Further properties of parsing and validation *)

(** ** The parsed keys *)

Lemma split_pieces_without_separator (sep : code_unit) (s piece : jsstring) :
  In piece (split sep s) -> ~ In sep piece.
Proof.
  revert piece. induction s as [|c s IH]; intros piece Hin; simpl in Hin.
  - destruct Hin as [<- | []]. intros [].
  - destruct (N.eqb_spec c sep) as [-> | Hne].
    + destruct Hin as [<- | Hin]; [intros [] | now apply IH].
    + destruct (split sep s) as [|w ws] eqn:Hs.
      * destruct Hin as [<- | []]. intros [H | []]. congruence.
      * destruct Hin as [<- | Hin].
        -- intros [H | H]; [congruence|]. apply (IH w); [now left | exact H].
        -- apply IH. now right.
Qed.

Lemma In_trimStart (c : code_unit) (s : jsstring) :
  In c (trimStart s) -> In c s.
Proof.
  induction s as [|d s IH]; simpl; [tauto|].
  destruct (is_whitespace d); [intros H; right; now apply IH | tauto].
Qed.

Lemma In_trim (c : code_unit) (s : jsstring) :
  In c (trim s) -> In c s.
Proof.
  unfold trim, trimEnd. intros H. apply in_rev, In_trimStart, in_rev in H.
  now apply In_trimStart.
Qed.

Lemma trimStart_suffix (s : jsstring) :
  exists ws, s = ws ++ trimStart s.
Proof.
  induction s as [|d s [ws IH]]; simpl; [now exists []|].
  destruct (is_whitespace d); [|now exists []].
  exists (d :: ws). simpl. now rewrite <- IH.
Qed.

Lemma trim_last (s : jsstring) (c : code_unit) :
  last (trim s) = Some c -> is_whitespace c = false.
Proof.
  unfold trim, trimEnd.
  destruct (trimStart (rev (trimStart s))) as [|d y] eqn:Hy; [discriminate|].
  simpl. rewrite last_snoc. intros H. injection H as <-.
  eapply trimStart_head. exact Hy.
Qed.

Lemma trim_head (s : jsstring) (c : code_unit) :
  head (trim s) = Some c -> is_whitespace c = false.
Proof.
  unfold trim, trimEnd. intros H.
  destruct (trimStart_suffix (rev (trimStart s))) as [ws Hws].
  apply (f_equal (@rev code_unit)) in Hws. rewrite rev_involutive, rev_app_distr in Hws.
  destruct (rev (trimStart (rev (trimStart s)))) as [|d t]; [discriminate|].
  simpl in H. injection H as ->. simpl in Hws.
  eapply trimStart_head. exact Hws.
Qed.

Lemma segments_clean (raw : jsstring) :
  Forall clean_key (segments raw).
Proof.
  apply List.Forall_forall. intros s Hs. unfold segments in Hs.
  apply filter_In in Hs as [Hin Hne]. apply in_map_iff in Hin as (piece & <- & Hpiece).
  split; [|split; [|split]].
  - intros Hnil. rewrite Hnil in Hne. discriminate.
  - intros Hsemi. apply In_trim in Hsemi.
    now apply (split_pieces_without_separator semicolon raw piece).
  - apply trim_head.
  - apply trim_last.
Qed.

Lemma run_keys (raw : jsstring) (cfg : PartialConfig) (m : ApiKeyManager) (cs : list call) :
  constructor raw cfg = Return m ->
  List.map key (apiKeys (run cs m)) = segments raw.
Proof.
  intros Hm.
  assert (Hkeys : List.map key (apiKeys (run cs m)) = List.map key (apiKeys m)).
  { apply (run_invariant (fun x => List.map key (apiKeys x) = List.map key (apiKeys m)));
      [|reflexivity].
    intros c this <-. destruct (state_after_kept c this) as (Hk & _).
    now apply (kept_map_key c). }
  rewrite Hkeys. apply constructor_Return in Hm as [_ ->]. simpl.
  now destruct (imap_fresh_keys (segments raw) 0) as (Hk & _).
Qed.

(** Every key of a constructed manager, then and after any sequence of
    calls, is as the parser cut it: not empty, without a semicolon, and
    with no whitespace at its start or end. *)
Theorem constructor_keys_clean (raw : jsstring) (cfg : PartialConfig)
    (m : ApiKeyManager) (cs : list call) :
  constructor raw cfg = Return m ->
  Forall (fun k => clean_key (key k)) (apiKeys (run cs m)).
Proof.
  intros Hm. pose proof (run_keys raw cfg m cs Hm) as Hk.
  pose proof (segments_clean raw) as Hc. rewrite <- Hk in Hc.
  exact (proj1 (List.Forall_map key clean_key _) Hc).
Qed.

Lemma constructor_keys_clean_witness :
  Forall (fun k => clean_key (key k))
    (apiKeys (run [call_rotateApiKey 1 (0 # 1)] (fresh " a ;; b c ;" emptyConfig))).
Proof.
  apply (constructor_keys_clean (js " a ;; b c ;") emptyConfig). vm_compute. reflexivity.
Defined.

(** ** parseAndValidateApiKeys *)

Lemma no_short_key (keys : list jsstring) :
  (Z.of_nat (length (List.filter (fun key => jslength key <? 8) keys)) >? 0) = false
  <-> Forall (fun s => (8 <= length s)%nat) keys.
Proof.
  induction keys as [|s keys IH]; simpl.
  - split; [constructor | reflexivity].
  - unfold jslength at 1. destruct (Z.ltb_spec (Z.of_nat (length s)) 8) as [Hlt | Hge].
    + split; [simpl; intros H; exfalso; revert H; unfold Z.gtb; simpl;
                destruct (length (List.filter _ keys)); discriminate|].
      intros H. inversion H; subst. lia.
    + rewrite IH. split; [intros H; constructor; [lia | exact H]|].
      intros H. now inversion H.
Qed.

(** The validator counts the non-empty trimmed segments, whatever it
    answers; it answers valid exactly when there is at least one segment
    and every segment has 8 code units or more, and exactly then it
    reports no error. *)
Theorem parseAndValidateApiKeys_spec (raw : jsstring) :
  keyCount (parseAndValidateApiKeys raw) = Z.of_nat (length (segments raw))
  /\ (isValid (parseAndValidateApiKeys raw) = true
      <-> segments raw <> [] /\ Forall (fun s => (8 <= length s)%nat) (segments raw))
  /\ (isValid (parseAndValidateApiKeys raw) = true
      <-> error (parseAndValidateApiKeys raw) = None).
Proof.
  unfold parseAndValidateApiKeys.
  rewrite falsy_all_whitespace, parsed_keys_are_segments.
  destruct (all_whitespace raw) eqn:Hws.
  { rewrite (all_whitespace_no_segments raw Hws). simpl.
    split; [reflexivity|]. split; (split; [discriminate|]).
    - intros [H _]. congruence.
    - discriminate. }
  rewrite length_zero_test.
  destruct (segments raw) as [|s l] eqn:Hs.
  { simpl. split; [reflexivity|]. split; (split; [discriminate|]).
    - intros [H _]. congruence.
    - discriminate. }
  pose proof (no_short_key (s :: l)) as Hshort.
  destruct (Z.of_nat (length (List.filter (fun key => jslength key <? 8) (s :: l))) >? 0);
    cbn [keyCount isValid error].
  - split; [reflexivity|]. split; (split; [discriminate|]).
    + intros [_ H]. apply Hshort in H. discriminate.
    + discriminate.
  - split; [reflexivity|]. split; (split; [|reflexivity]).
    + intros _. split; [discriminate | now apply Hshort].
    + reflexivity.
Qed.

Lemma parseAndValidateApiKeys_spec_witness :
  isValid (parseAndValidateApiKeys (js "AIzaSyTest123;AIzaSyTest456")) = true
  /\ keyCount (parseAndValidateApiKeys (js "short;AIzaSyTest123")) = 2.
Proof.
  split.
  - destruct (parseAndValidateApiKeys_spec (js "AIzaSyTest123;AIzaSyTest456"))
      as (_ & [_ H] & _).
    apply H. split; [vm_compute; discriminate|]. vm_compute. repeat constructor.
  - destruct (parseAndValidateApiKeys_spec (js "short;AIzaSyTest123")) as (H & _).
    rewrite H. vm_compute. reflexivity.
Defined.

Lemma valid_keys_long (raw : jsstring) :
  isValid (parseAndValidateApiKeys raw) = true ->
  Forall (fun s => (8 <= length s)%nat) (segments raw).
Proof.
  unfold parseAndValidateApiKeys.
  rewrite falsy_all_whitespace, parsed_keys_are_segments.
  destruct (all_whitespace raw); [discriminate|].
  destruct (Z.of_nat (length (segments raw)) =? 0); [discriminate|].
  pose proof (no_short_key (segments raw)) as Hshort.
  destruct (Z.of_nat (length (List.filter (fun key => jslength key <? 8) (segments raw)))
            >? 0); [discriminate|].
  intros _. now apply Hshort.
Qed.

Lemma validated_constructs (raw : jsstring) (cfg : PartialConfig) :
  isValid (parseAndValidateApiKeys raw) = true ->
  exists m,
    constructor raw cfg = Return m
    /\ Z.of_nat (length (apiKeys m)) = keyCount (parseAndValidateApiKeys raw)
    /\ List.map key (apiKeys m) = segments raw.
Proof.
  intros Hv. pose proof (parseAndValidateApiKeys_agrees raw cfg) as Hagree.
  destruct (constructor raw cfg) as [m|e] eqn:Hm.
  - exists m. split; [reflexivity|]. split; [now rewrite Hagree|].
    now apply (run_keys raw cfg m []).
  - destruct e; [|contradiction..]. rewrite Hagree in Hv. discriminate.
Qed.

(** What the validator accepts, the constructor builds: on an input the
    validator calls valid, [new ApiKeyManager] does not throw, and the
    manager has as many credentials as the validator counted, each with a
    key of 8 code units or more.  The constructor itself asks for no
    minimum length: it succeeds exactly when the validator's count is
    positive. *)
Theorem validator_accepts_constructor_succeeds (raw : jsstring) (cfg : PartialConfig) :
  (isValid (parseAndValidateApiKeys raw) = true ->
   exists m,
     constructor raw cfg = Return m
     /\ Z.of_nat (length (apiKeys m)) = keyCount (parseAndValidateApiKeys raw)
     /\ Forall (fun k => (8 <= length (key k))%nat) (apiKeys m))
  /\ ((exists m, constructor raw cfg = Return m)
      <-> 0 < keyCount (parseAndValidateApiKeys raw)).
Proof.
  split.
  - intros Hv. destruct (validated_constructs raw cfg Hv) as (m & Hm & Hlen & Hkeys).
    exists m. split; [exact Hm|]. split; [exact Hlen|].
    pose proof (valid_keys_long raw Hv) as Hall. rewrite <- Hkeys in Hall.
    exact (proj1 (List.Forall_map key (fun s => (8 <= length s)%nat) _) Hall).
  - pose proof (parseAndValidateApiKeys_agrees raw cfg) as Hagree.
    destruct (constructor raw cfg) as [m|e] eqn:Hm.
    + rewrite Hagree. split; [|now exists m]. intros _.
      apply constructor_fresh_table in Hm as (_ & _ & _ & Hpos). lia.
    + destruct e; [|contradiction..]. rewrite Hagree. simpl.
      split; [intros [m Hm']; discriminate | lia].
Qed.

Lemma validator_accepts_constructor_succeeds_witness :
  exists m, constructor (js "AIzaSyTest123;AIzaSyTest456") emptyConfig = Return m
    /\ Z.of_nat (length (apiKeys m)) = 2.
Proof.
  destruct (validator_accepts_constructor_succeeds (js "AIzaSyTest123;AIzaSyTest456")
              emptyConfig) as [H _].
  destruct H as (m & Hm & Hlen & _); [vm_compute; reflexivity|].
  exists m. split; [exact Hm|]. rewrite Hlen. vm_compute. reflexivity.
Defined.

(** * Properties of validateAuthMethod *)

Lemma strict_equal_eq (a b : jsstring) :
  strict_equal a b = true <-> a = b.
Proof.
  revert b. induction a as [|x a IH]; intros [|y b]; simpl;
    try (split; [discriminate | discriminate]); [tauto|].
  rewrite andb_true_iff, IH, N.eqb_eq. split; [intros [-> ->]; reflexivity|].
  intros H. injection H as -> ->. split; reflexivity.
Qed.

Lemma validateAuthMethod_gemini_cases (engine_message : exn -> string)
    (env : ProcessEnv) (g : module_state) :
  Auth.validateAuthMethod engine_message env (AuthType_value USE_GEMINI) g =
  match GEMINI_API_KEY env with
  | Some (c :: rest) =>
      if isValid (parseAndValidateApiKeys (c :: rest))
      then
        if keyCount (parseAndValidateApiKeys (c :: rest)) >? 1
        then
          match constructor (c :: rest) emptyConfig with
          | Return m => (None, Some m)
          | Throw e => (None, g)
          end
        else (None, g)
      else
        (Some ("Invalid GEMINI_API_KEY format: "
               ++ match error (parseAndValidateApiKeys (c :: rest)) with
                  | Some message => message
                  | None => "undefined"
                  end)%string, g)
  | Some [] | None =>
      (Some "GEMINI_API_KEY environment variable not found. Add that to your environment and try again (no reload needed if using .env)!"%string,
       g)
  end.
Proof.
  unfold Auth.validateAuthMethod.
  change (strict_equal (AuthType_value USE_GEMINI) (AuthType_value LOGIN_WITH_GOOGLE)
          || strict_equal (AuthType_value USE_GEMINI) (AuthType_value CLOUD_SHELL))
    with false.
  change (strict_equal (AuthType_value USE_GEMINI) (AuthType_value USE_GEMINI)) with true.
  cbv beta iota.
  destruct (GEMINI_API_KEY env) as [[|c rest]|]; try reflexivity.
  destruct (isValid (parseAndValidateApiKeys (c :: rest))) eqn:Hv; [|reflexivity].
  simpl negb. cbv iota.
  destruct (keyCount (parseAndValidateApiKeys (c :: rest)) >? 1); [|reflexivity].
  destruct (validated_constructs (c :: rest) emptyConfig Hv) as (m & Hm & _).
  unfold initializeApiKeyManager. simpl default. rewrite Hm. reflexivity.
Qed.

(** [validateAuthMethod] for the Gemini key: it accepts (returns [null])
    exactly when [GEMINI_API_KEY] is set and the validator calls it
    valid.  On acceptance with two keys or more the stored manager is
    replaced by a fresh one with as many credentials as the validator
    counted, and with a single key the stored manager is left as it was;
    on refusal the stored manager is left as it was and the message is
    the not-found message or an invalid-format message: the constructor
    cannot fail after the validator accepted, so the failed-to-initialize
    message is never returned. *)
Theorem validateAuthMethod_gemini (engine_message : exn -> string)
    (env : ProcessEnv) (g : module_state) :
  let result := Auth.validateAuthMethod engine_message env (AuthType_value USE_GEMINI) g in
  (fst result = None
   <-> exists key, GEMINI_API_KEY env = Some key
         /\ isValid (parseAndValidateApiKeys key) = true)
  /\ (forall key, GEMINI_API_KEY env = Some key ->
        isValid (parseAndValidateApiKeys key) = true ->
        (keyCount (parseAndValidateApiKeys key) <= 1 -> snd result = g)
        /\ (1 < keyCount (parseAndValidateApiKeys key) ->
            exists m, constructor key emptyConfig = Return m
              /\ snd result = Some m
              /\ Z.of_nat (length (apiKeys m)) = keyCount (parseAndValidateApiKeys key)))
  /\ (fst result <> None -> snd result = g)
  /\ (forall message, fst result = Some message ->
        message = "GEMINI_API_KEY environment variable not found. Add that to your environment and try again (no reload needed if using .env)!"%string
        \/ exists reason, message = ("Invalid GEMINI_API_KEY format: " ++ reason)%string).
Proof.
  intros result. subst result. rewrite validateAuthMethod_gemini_cases.
  destruct (GEMINI_API_KEY env) as [[|c rest]|] eqn:Henv.
  - split; [split; [discriminate|]|split; [|split]].
    + intros (key & Hk & Hv). injection Hk as <-. discriminate.
    + intros key Hk Hv. injection Hk as <-. discriminate.
    + reflexivity.
    + intros message H. injection H as <-. now left.
  - destruct (isValid (parseAndValidateApiKeys (c :: rest))) eqn:Hv.
    + destruct (validated_constructs (c :: rest) emptyConfig Hv) as (m & Hm & Hlen & _).
      rewrite Hm.
      destruct (Z.gtb_spec (keyCount (parseAndValidateApiKeys (c :: rest))) 1) as [Hgt | Hle];
        simpl.
      * split; [split; [intros _; now exists (c :: rest) | reflexivity]|].
        split; [|split; [congruence | discriminate]].
        intros key Hk _. injection Hk as <-. split; [lia|]. intros _. now exists m.
      * split; [split; [intros _; now exists (c :: rest) | reflexivity]|].
        split; [|split; [congruence | discriminate]].
        intros key Hk _. injection Hk as <-. split; [reflexivity | lia].
    + simpl. split; [split; [discriminate|]|split; [|split]].
      * intros (key & Hk & Hv'). injection Hk as <-. congruence.
      * intros key Hk Hv'. injection Hk as <-. congruence.
      * reflexivity.
      * intros message H. injection H as <-. right. eexists. reflexivity.
  - split; [split; [discriminate|]|split; [|split]].
    + intros (key & Hk & _). discriminate.
    + intros key Hk. discriminate.
    + reflexivity.
    + intros message H. injection H as <-. now left.
Qed.

Lemma validateAuthMethod_gemini_witness :
  exists m,
    snd (Auth.validateAuthMethod (fun _ => EmptyString)
           (mkProcessEnv (Some (js "AIzaSyTest123;AIzaSyTest456")) None None None)
           (AuthType_value USE_GEMINI) None)
    = Some m
    /\ Z.of_nat (length (apiKeys m)) = 2.
Proof.
  destruct (validateAuthMethod_gemini (fun _ => EmptyString)
              (mkProcessEnv (Some (js "AIzaSyTest123;AIzaSyTest456")) None None None) None)
    as (_ & H & _).
  destruct (H (js "AIzaSyTest123;AIzaSyTest456")) as (_ & H2);
    [reflexivity | vm_compute; reflexivity |].
  destruct H2 as (m & _ & Hs & Hlen); [vm_compute; reflexivity|].
  exists m. split; [exact Hs|]. rewrite Hlen. vm_compute. reflexivity.
Defined.

(** [validateAuthMethod] touches the stored manager only for the Gemini
    method with two valid keys or more; in every other case, a single
    valid key included, whatever was stored stays stored.  Google login
    and Cloud Shell are accepted whatever the environment; Vertex AI is
    accepted exactly when an API key, or both a project and a location,
    are set to non-empty values; any other method is refused as invalid. *)
Theorem validateAuthMethod_other_methods (engine_message : exn -> string)
    (env : ProcessEnv) (authMethod : jsstring) (g : module_state) :
  let result := Auth.validateAuthMethod engine_message env authMethod g in
  (snd result = g
   \/ (authMethod = AuthType_value USE_GEMINI
       /\ fst result = None
       /\ exists key m, GEMINI_API_KEY env = Some key
            /\ 1 < keyCount (parseAndValidateApiKeys key)
            /\ constructor key emptyConfig = Return m
            /\ snd result = Some m))
  /\ (authMethod = AuthType_value LOGIN_WITH_GOOGLE \/ authMethod = AuthType_value CLOUD_SHELL ->
      fst result = None)
  /\ (authMethod = AuthType_value USE_VERTEX_AI ->
      (fst result = None
       <-> truthy (GOOGLE_API_KEY env) = true
           \/ (truthy (GOOGLE_CLOUD_PROJECT env) = true
               /\ truthy (GOOGLE_CLOUD_LOCATION env) = true)))
  /\ ((forall a, authMethod <> AuthType_value a) ->
      fst result = Some "Invalid auth method selected."%string).
Proof.
  intros result. subst result. split; [|split; [|split]].
  - destruct (strict_equal authMethod (AuthType_value USE_GEMINI)) eqn:Hg.
    + apply strict_equal_eq in Hg. subst authMethod.
      rewrite validateAuthMethod_gemini_cases.
      destruct (GEMINI_API_KEY env) as [[|c rest]|] eqn:Henv; try (now left).
      destruct (isValid (parseAndValidateApiKeys (c :: rest))) eqn:Hv; [|now left].
      destruct (Z.gtb_spec (keyCount (parseAndValidateApiKeys (c :: rest))) 1) as [Hgt | Hle];
        [|now left].
      destruct (validated_constructs (c :: rest) emptyConfig Hv) as (m & Hm & _).
      rewrite Hm. right. split; [reflexivity|]. split; [reflexivity|].
      exists (c :: rest), m. repeat split; assumption.
    + left. unfold Auth.validateAuthMethod. rewrite Hg.
      destruct (strict_equal authMethod (AuthType_value LOGIN_WITH_GOOGLE)
                || strict_equal authMethod (AuthType_value CLOUD_SHELL)); [reflexivity|].
      destruct (strict_equal authMethod (AuthType_value USE_VERTEX_AI)); [|reflexivity].
      cbv zeta.
      destruct (negb (truthy (GOOGLE_CLOUD_PROJECT env) && truthy (GOOGLE_CLOUD_LOCATION env))
                && negb (truthy (GOOGLE_API_KEY env))); reflexivity.
  - intros Hm. unfold Auth.validateAuthMethod.
    assert (Ht : strict_equal authMethod (AuthType_value LOGIN_WITH_GOOGLE)
                 || strict_equal authMethod (AuthType_value CLOUD_SHELL) = true).
    { apply orb_true_iff. destruct Hm as [-> | ->]; [left | right]; now apply strict_equal_eq. }
    now rewrite Ht.
  - intros ->. unfold Auth.validateAuthMethod.
    change (strict_equal (AuthType_value USE_VERTEX_AI) (AuthType_value LOGIN_WITH_GOOGLE)
            || strict_equal (AuthType_value USE_VERTEX_AI) (AuthType_value CLOUD_SHELL))
      with false.
    change (strict_equal (AuthType_value USE_VERTEX_AI) (AuthType_value USE_GEMINI))
      with false.
    change (strict_equal (AuthType_value USE_VERTEX_AI) (AuthType_value USE_VERTEX_AI))
      with true.
    cbv beta iota zeta.
    destruct (truthy (GOOGLE_CLOUD_PROJECT env)), (truthy (GOOGLE_CLOUD_LOCATION env)),
      (truthy (GOOGLE_API_KEY env)); simpl;
      (split; [try discriminate; intros _; tauto
              | try reflexivity; intros [H | [H1 H2]]; discriminate]).
  - intros Hnone. unfold Auth.validateAuthMethod.
    assert (Hno : forall a, strict_equal authMethod (AuthType_value a) = false).
    { intros a. destruct (strict_equal authMethod (AuthType_value a)) eqn:H; [|reflexivity].
      apply strict_equal_eq in H. now apply Hnone in H. }
    now rewrite !Hno.
Qed.

Lemma validateAuthMethod_other_methods_witness :
  fst (Auth.validateAuthMethod (fun _ => EmptyString)
         (mkProcessEnv None (Some (js "key")) None None)
         (AuthType_value USE_VERTEX_AI) None)
  = None.
Proof.
  destruct (validateAuthMethod_other_methods (fun _ => EmptyString)
              (mkProcessEnv None (Some (js "key")) None None)
              (AuthType_value USE_VERTEX_AI) None) as (_ & _ & H & _).
  apply (H eq_refl). left. reflexivity.
Defined.

(** * Properties of the module-level functions of contentGenerator.ts *)

Lemma maskApiKey_returns (value : jsstring) :
  maskApiKey value = Return (masked_as_specified value).
Proof.
  unfold maskApiKey, masked_as_specified, jslength.
  destruct (Nat.leb_spec (length value) 12) as [Hle|Hgt].
  - destruct (Z.leb_spec (Z.of_nat (length value)) 12) as [_|Hc]; [|lia].
    apply jsrepeat_star.
  - destruct (Z.leb_spec (Z.of_nat (length value)) 12) as [Hc|_]; [lia|].
    replace (Z.of_nat (length value) - 12) with (Z.of_nat (length value - 12)) by lia.
    rewrite jsrepeat_star.
    replace (Z.of_nat (length value) - 4) with (Z.of_nat (length value - 4)) by lia.
    change (Some 8) with (Some (Z.of_nat 8)).
    rewrite (substring_prefix value 8) by lia.
    rewrite substring_suffix by lia. reflexivity.
Qed.

Lemma with_manager_same (s : ContentGenerator.state) (m : ApiKeyManager) :
  ContentGenerator.apiKeyManager s = Some m -> ContentGenerator.with_manager m s = s.
Proof. destruct s as [g flag]. simpl. intros ->. reflexivity. Qed.

Lemma find_current_or_first_index (this : ApiKeyManager) (l : list objref)
    (k0 : objref) (r : nat) (k : ApiKeyInfo) :
  In k0 l ->
  find_current_or_first (set_currentIndex (index (snd k0)) this) l = Some (r, k) ->
  index k = index (snd k0).
Proof.
  intros Hin. unfold find_current_or_first. simpl.
  destruct (List.find (fun k1 : objref => index (snd k1) =? index (snd k0)) l)
    as [x|] eqn:Hf.
  - intros H. injection H as ->. apply find_some in Hf as [_ Hx]. simpl in Hx. lia.
  - eapply find_none in Hf; [|exact Hin]. simpl in Hf. lia.
Qed.

Lemma selection_after_stamp (now : Date) (i : Z) (this : ApiKeyManager)
    (r : nat) (k : ApiKeyInfo) :
  find_current_or_first (set_currentIndex i this) (getActiveKeys this) = Some (r, k) ->
  getCurrentApiKeyInfo
    (mkApiKeyManager (alter (set_lastUsed (Some now)) r (apiKeys this)) i (config this))
  = (Return (r, set_lastUsed (Some now) k),
     mkApiKeyManager (alter (set_lastUsed (Some now)) r (apiKeys this)) i (config this)).
Proof.
  intros Hf.
  set (this1 := mkApiKeyManager (alter (set_lastUsed (Some now)) r (apiKeys this)) i
                  (config this)).
  assert (Ha : getActiveKeys this1
               = List.map (touch (set_lastUsed (Some now)) r) (getActiveKeys this)).
  { apply (getActiveKeys_alter (set_lastUsed (Some now)) r this). reflexivity. }
  assert (Hf1 : find_current_or_first this1 (getActiveKeys this1)
                = Some (r, set_lastUsed (Some now) k)).
  { rewrite Ha.
    rewrite (find_current_or_first_touch _ r (set_currentIndex i this) this1)
      by reflexivity.
    rewrite Hf. unfold touch. simpl. now rewrite Nat.eqb_refl. }
  destruct (getCurrentApiKeyInfo_cases this1) as [[Hnil _] | (r' & k' & Hf' & _ & Heq)].
  - rewrite Hnil in Hf1. discriminate.
  - rewrite Hf1 in Hf'. injection Hf' as <- <-. exact Heq.
Qed.

(** A rotation that returns: the credential it moved to, and what
    [getCurrentApiKeyInfo()] answers right after. *)
Lemma rotateApiKey_returned (now : Date) (u : Q) (this this' : ApiKeyManager)
    (newKey : jsstring) :
  rotateApiKey now u this = (Return newKey, this') ->
  exists r k,
    In (r, k) (getActiveKeys this)
    /\ newKey = key k
    /\ this' = mkApiKeyManager (alter (set_lastUsed (Some now)) r (apiKeys this))
                 (index k) (config this)
    /\ getCurrentApiKeyInfo this' = (Return (r, set_lastUsed (Some now) k), this').
Proof.
  intros Hrot.
  destruct (rotateApiKey_cases now u this)
    as [[_ Heq] | [[_ Heq] | (k0 & r & k & Hin0 & Hin & _ & Hf & Heq)]];
    rewrite Heq in Hrot; try discriminate.
  injection Hrot as <- <-.
  pose proof (find_current_or_first_index this _ k0 r k Hin0 Hf) as Hi.
  exists r, k. split; [exact Hin|]. split; [reflexivity|].
  rewrite Hi. split; [reflexivity|]. now apply selection_after_stamp.
Qed.

Lemma rotateApiKey_try_cases (now : Date) (u : Q) (m : ApiKeyManager) (flag : bool) :
  (exists e, rotateApiKey now u m = (Throw e, m)
     /\ ContentGenerator.rotateApiKey_try now u m flag = (Throw e, (m, flag)))
  \/ (exists r k m',
        In (r, k) (getActiveKeys m)
        /\ rotateApiKey now u m = (Return (key k), m')
        /\ currentIndex m' = index k
        /\ length (apiKeys m') = length (apiKeys m)
        /\ ContentGenerator.rotateApiKey_try now u m flag
           = (Return (ContentGenerator.mkRotation true (Some (key k))
                        (Some (ContentGenerator.describe (index k)
                                 (Z.of_nat (length (apiKeys m)))
                                 (masked_as_specified (key k))))),
              (m', true))).
Proof.
  unfold ContentGenerator.rotateApiKey_try.
  destruct (rotateApiKey now u m) as [[newKey|e] m'] eqn:Hrot.
  - right. destruct (rotateApiKey_returned now u m m' newKey Hrot)
      as (r & k & Hin & -> & Hm' & Hinfo).
    exists r, k, m'. split; [exact Hin|]. split; [reflexivity|].
    split; [now rewrite Hm'|].
    assert (Hlen : length (apiKeys m') = length (apiKeys m)).
    { rewrite Hm'. simpl. apply length_alter. }
    split; [exact Hlen|].
    rewrite Hinfo. unfold getTotalKeyCount, read. cbv beta iota.
    rewrite maskApiKey_returns, Hlen. reflexivity.
  - left. exists e.
    destruct (rotateApiKey_cases now u m)
      as [[_ Heq] | [[_ Heq] | (k0 & r & k & _ & _ & _ & _ & Heq)]];
      rewrite Heq in Hrot; try discriminate; injection Hrot as <- <-; now split.
Qed.

(** The module-level [rotateApiKey()] never throws.  When it answers
    [rotated: false] it answers nothing else and has changed nothing,
    neither the manager nor the rotation flag; it answers so whenever no
    manager is stored, the manager has at most one key, or no credential
    is active.  The rotation flag, as [checkAndResetApiKeyRotation()]
    reads it next, is up exactly when this call rotated or the flag was
    up before, and a second read finds it down. *)
Theorem module_rotateApiKey_total (now : Date) (u : Q) (s : ContentGenerator.state) :
  exists result s',
    ContentGenerator.rotateApiKey now u s = (Return result, s')
    /\ (ContentGenerator.rotated result = false ->
        result = ContentGenerator.not_rotated /\ s' = s)
    /\ (ContentGenerator.apiKeyManager s = None
        \/ (exists m, ContentGenerator.apiKeyManager s = Some m
              /\ ((length (apiKeys m) <= 1)%nat \/ active_subset m = [])) ->
        ContentGenerator.rotated result = false)
    /\ fst (ContentGenerator.checkAndResetApiKeyRotation s')
       = ContentGenerator.rotated result || ContentGenerator.globalApiKeyRotated s
    /\ fst (ContentGenerator.checkAndResetApiKeyRotation
              (snd (ContentGenerator.checkAndResetApiKeyRotation s'))) = false
    /\ ContentGenerator.apiKeyManager
         (snd (ContentGenerator.checkAndResetApiKeyRotation s'))
       = ContentGenerator.apiKeyManager s'.
Proof.
  unfold ContentGenerator.rotateApiKey, getApiKeyManager.
  destruct s as [[m|] flag]; simpl ContentGenerator.apiKeyManager;
    simpl ContentGenerator.globalApiKeyRotated.
  2:{ do 2 eexists. split; [reflexivity|]. simpl. repeat split; reflexivity. }
  unfold getTotalKeyCount at 1, read. cbv beta iota.
  destruct (Z.leb_spec (Z.of_nat (length (apiKeys m))) 1) as [Hle | Hgt].
  { do 2 eexists. split; [reflexivity|]. simpl. repeat split; reflexivity. }
  destruct (rotateApiKey_try_cases now u m flag)
    as [(e & Hrot & Htry) | (r & k & m' & Hin & Hrot & _ & _ & Htry)]; rewrite Htry.
  - do 2 eexists. split; [reflexivity|]. simpl. repeat split; reflexivity.
  - do 2 eexists. split; [reflexivity|]. simpl.
    split; [discriminate|]. split; [|repeat split; reflexivity].
    intros [Hnone | (m0 & Hm0 & [Hlen | Hact])]; [discriminate| |].
    + injection Hm0 as <-. lia.
    + injection Hm0 as <-. apply getActiveKeys_nil in Hact. rewrite Hact in Hin.
      destruct Hin.
Qed.

Lemma module_rotateApiKey_total_witness :
  fst (ContentGenerator.rotateApiKey 1 (0 # 1)
         (ContentGenerator.mkState (Some (fresh "onlykey" emptyConfig)) false))
  = Return ContentGenerator.not_rotated.
Proof.
  destruct (module_rotateApiKey_total 1 (0 # 1)
              (ContentGenerator.mkState (Some (fresh "onlykey" emptyConfig)) false))
    as (result & s' & Heq & Hnot & Hcond & _).
  rewrite Heq. simpl. f_equal. apply Hnot, Hcond. right.
  eexists. split; [reflexivity|]. left. vm_compute. lia.
Defined.

(** With a manager of two keys or more, some credential active and
    [Math.random()] in the unit interval, the module-level
    [rotateApiKey()] performs the manager's rotation, raises the rotation
    flag and answers [rotated: true] with the key of the active
    credential the manager moved to and a description "API i/N (masked
    key)" where [i] is that credential's [index] plus one (the new
    [currentIndex] plus one) and [N] the total key count. *)
Theorem module_rotateApiKey_success (now : Date) (u : Q) (s : ContentGenerator.state)
    (m : ApiKeyManager) :
  ContentGenerator.apiKeyManager s = Some m ->
  (1 < length (apiKeys m))%nat ->
  active_subset m <> [] ->
  (0 <= u)%Q -> (u < 1)%Q ->
  exists k m',
    In k (active_subset m)
    /\ rotateApiKey now u m = (Return (key k), m')
    /\ currentIndex m' = index k
    /\ ContentGenerator.rotateApiKey now u s
       = (Return (ContentGenerator.mkRotation true (Some (key k))
                    (Some (ContentGenerator.describe (index k)
                             (Z.of_nat (length (apiKeys m)))
                             (masked_as_specified (key k))))),
          ContentGenerator.mkState (Some m') true).
Proof.
  intros Hm Hlen Hact H0 H1.
  unfold ContentGenerator.rotateApiKey, getApiKeyManager. rewrite Hm.
  unfold getTotalKeyCount at 1, read. cbv beta iota.
  destruct (Z.leb_spec (Z.of_nat (length (apiKeys m))) 1) as [Hle | _]; [lia|].
  destruct (rotateApiKey_try_cases now u m (ContentGenerator.globalApiKeyRotated s))
    as [(e & Hrot & _) | (r & k & m' & Hin & Hrot & Hci & _ & Htry)].
  - destruct (rotateApiKey_active now u m H0 H1 Hact) as (k & _ & Hk).
    rewrite Hrot in Hk. discriminate.
  - exists k, m'. split; [apply In_active_subset; now exists r|].
    split; [exact Hrot|]. split; [exact Hci|]. now rewrite Htry.
Qed.

Lemma module_rotateApiKey_success_witness :
  exists k m',
    In k (active_subset (fresh "AIzaSyTest123456a;AIzaSyTest123456b" emptyConfig))
    /\ fst (ContentGenerator.rotateApiKey 1 (0 # 1)
              (ContentGenerator.mkState
                 (Some (fresh "AIzaSyTest123456a;AIzaSyTest123456b" emptyConfig)) false))
       = Return (ContentGenerator.mkRotation true (Some (key k))
                   (Some (ContentGenerator.describe (index k) 2
                            (masked_as_specified (key k)))))
    /\ snd (ContentGenerator.rotateApiKey 1 (0 # 1)
              (ContentGenerator.mkState
                 (Some (fresh "AIzaSyTest123456a;AIzaSyTest123456b" emptyConfig)) false))
       = ContentGenerator.mkState (Some m') true.
Proof.
  destruct (module_rotateApiKey_success 1 (0 # 1)
              (ContentGenerator.mkState
                 (Some (fresh "AIzaSyTest123456a;AIzaSyTest123456b" emptyConfig)) false)
              (fresh "AIzaSyTest123456a;AIzaSyTest123456b" emptyConfig))
    as (k & m' & Hk & _ & _ & Heq).
  - reflexivity.
  - vm_compute. lia.
  - vm_compute. discriminate.
  - vm_compute. discriminate.
  - vm_compute. reflexivity.
  - exists k, m'. rewrite Heq. split; [exact Hk|]. split; reflexivity.
Defined.

(** The module-level [getCurrentApiKeyInfo()] never throws and changes
    nothing.  It answers [null] exactly when no manager is stored or no
    credential is active; otherwise it describes the credential the
    manager's [getCurrentApiKeyInfo()] selects as "API i/N (masked key)",
    with [i] its [index] plus one and [N] the total key count. *)
Theorem module_getCurrentApiKeyInfo_spec (s : ContentGenerator.state) :
  snd (ContentGenerator.getCurrentApiKeyInfo s) = s
  /\ (fst (ContentGenerator.getCurrentApiKeyInfo s) = Return None
      <-> ContentGenerator.apiKeyManager s = None
          \/ exists m, ContentGenerator.apiKeyManager s = Some m /\ active_subset m = [])
  /\ (forall m r k,
        ContentGenerator.apiKeyManager s = Some m ->
        fst (getCurrentApiKeyInfo m) = Return (r, k) ->
        fst (ContentGenerator.getCurrentApiKeyInfo s)
        = Return (Some (ContentGenerator.describe (index k)
                          (Z.of_nat (length (apiKeys m)))
                          (masked_as_specified (key k))))).
Proof.
  unfold ContentGenerator.getCurrentApiKeyInfo, getApiKeyManager.
  destruct s as [[m|] flag]; simpl ContentGenerator.apiKeyManager.
  2:{ split; [reflexivity|]. split; [split; [now left | reflexivity]|].
      intros m r k H. discriminate. }
  destruct (getCurrentApiKeyInfo_cases m) as [[Hnil Heq] | (r & k & _ & Hin & Heq)];
    rewrite Heq; cbv beta iota.
  - split; [reflexivity|]. split.
    + split; [|reflexivity]. intros _. right. exists m. split; [reflexivity|].
      now apply getActiveKeys_nil.
    + intros m0 r k Hm0 H. injection Hm0 as <-. rewrite Heq in H. discriminate.
  - unfold getTotalKeyCount, read. cbv beta iota. rewrite maskApiKey_returns.
    split; [reflexivity|]. split.
    + split; [discriminate|]. intros [H | (m0 & Hm0 & Hact)]; [discriminate|].
      injection Hm0 as <-. apply getActiveKeys_nil in Hact. rewrite Hact in Hin.
      destruct Hin.
    + intros m0 r0 k0 Hm0 H. injection Hm0 as <-. rewrite Heq in H. simpl in H.
      injection H as <- <-. reflexivity.
Qed.

Lemma module_getCurrentApiKeyInfo_spec_witness :
  fst (ContentGenerator.getCurrentApiKeyInfo
         (ContentGenerator.mkState
            (Some (fresh "AIzaSyTest123456a;AIzaSyTest123456b" emptyConfig)) false))
  = Return (Some (js "API 1/2 (AIzaSyTe*****456a)")).
Proof.
  destruct (module_getCurrentApiKeyInfo_spec
              (ContentGenerator.mkState
                 (Some (fresh "AIzaSyTest123456a;AIzaSyTest123456b" emptyConfig)) false))
    as (_ & _ & H).
  erewrite H; [|reflexivity|vm_compute; reflexivity]. vm_compute. reflexivity.
Defined.

(** [hasMultipleApiKeys()] is false while no manager is stored; once
    [initializeApiKeyManager] has stored one it tells whether the raw
    string had more than one non-empty segment, and no sequence of calls
    on the manager changes that answer. *)
Theorem hasMultipleApiKeys_spec (raw : jsstring) (cfg : option PartialConfig)
    (g : module_state) :
  hasMultipleApiKeys initial_module_state = false
  /\ (forall m, constructor raw (default emptyConfig cfg) = Return m ->
        initializeApiKeyManager raw cfg g = (Return m, Some m)
        /\ forall cs,
             hasMultipleApiKeys (Some (run cs m))
             = (Z.of_nat (length (segments raw)) >? 1)).
Proof.
  split; [reflexivity|]. intros m Hm. split.
  - unfold initializeApiKeyManager. now rewrite Hm.
  - intros cs. unfold hasMultipleApiKeys, getTotalKeyCount, read. simpl.
    now rewrite <- (run_keys raw _ m cs Hm), length_map.
Qed.

Lemma hasMultipleApiKeys_spec_witness :
  hasMultipleApiKeys
    (Some (run [call_reportError (js "e"); call_rotateApiKey 1 (0 # 1)]
             (fresh "k1; k2" emptyConfig)))
  = true.
Proof.
  destruct (hasMultipleApiKeys_spec (js "k1; k2") None None) as [_ H].
  destruct (H (fresh "k1; k2" emptyConfig)) as [_ H2]; [vm_compute; reflexivity|].
  rewrite H2. vm_compute. reflexivity.
Defined.

(** Where [createContentGeneratorConfig] takes the Gemini key from.  With
    [GEMINI_API_KEY] set to a non-empty value and a manager stored, the
    key is the manager's current key, never the environment's: the call
    fails with the manager's error when no credential is active, and
    otherwise stamps the credential and hands its key to
    [getEffectiveModel] and to the configuration.  With no manager stored
    the key is the environment's.  With [GEMINI_API_KEY] unset or empty
    the configuration carries no key and the manager is not consulted. *)
Theorem createContentGeneratorConfig_gemini_key
    (DEFAULT_GEMINI_MODEL : jsstring)
    (getEffectiveModel : jsstring -> jsstring -> outcome jsstring)
    (env : ProcessEnv) (now : Date) (model : option jsstring) (s : ContentGenerator.state) :
  let effectiveModel := if truthy model then default [] model else DEFAULT_GEMINI_MODEL in
  let result :=
    ContentGenerator.createContentGeneratorConfig DEFAULT_GEMINI_MODEL getEffectiveModel
      env now model (Some USE_GEMINI) s in
  let configured (key : jsstring) (s' : ContentGenerator.state) :=
    match getEffectiveModel key effectiveModel with
    | Return model' =>
        (Return (ContentGenerator.mkContentGeneratorConfig model' (Some key) (Some false)
                   (Some USE_GEMINI)), s')
    | Throw e => (Throw e, s')
    end in
  (truthy (GEMINI_API_KEY env) = false ->
   result = (Return (ContentGenerator.mkContentGeneratorConfig effectiveModel None None
                       (Some USE_GEMINI)), s))
  /\ (forall envKey, GEMINI_API_KEY env = Some envKey -> truthy (Some envKey) = true ->
        (ContentGenerator.apiKeyManager s = None -> result = configured envKey s)
        /\ (forall m, ContentGenerator.apiKeyManager s = Some m ->
              (active_subset m = [] ->
               result = (Throw (Error "No active API keys available"), s))
              /\ (active_subset m <> [] ->
                  exists k m',
                    In k (active_subset m)
                    /\ getCurrentApiKey now m = (Return (key k), m')
                    /\ result = configured (key k) (ContentGenerator.with_manager m' s)))).
Proof.
  intros effectiveModel result configured. subst result.
  unfold ContentGenerator.createContentGeneratorConfig, ContentGenerator.or_undefined.
  fold effectiveModel. split.
  - intros Hf. now rewrite Hf.
  - intros envKey Henv Ht. rewrite Henv, Ht. split.
    + intros Hnone. unfold getApiKeyManager. now rewrite Hnone.
    + intros m Hm. unfold getApiKeyManager. rewrite Hm. split.
      * intros Hact. apply getActiveKeys_nil in Hact.
        rewrite (getCurrentApiKey_none now m Hact).
        now rewrite (with_manager_same s m Hm).
      * intros Hact. rewrite <- getActiveKeys_nil in Hact.
        destruct (getCurrentApiKey_some now m Hact) as (r & k & _ & Hin & Heq).
        exists k. eexists. split; [apply In_active_subset; now exists r|].
        split; [exact Heq|]. now rewrite Heq.
Qed.

Lemma createContentGeneratorConfig_gemini_key_witness :
  fst (ContentGenerator.createContentGeneratorConfig (js "default-model")
         (fun _ model => Return model)
         (mkProcessEnv (Some (js "envkey")) None None None) 7 None (Some USE_GEMINI)
         (ContentGenerator.mkState
            (Some (run (reports [js "e"]) (fresh "k1" (mkPartialConfig None (Some 1) None))))
            false))
  = Throw (Error "No active API keys available").
Proof.
  destruct (createContentGeneratorConfig_gemini_key (js "default-model")
              (fun _ model => Return model)
              (mkProcessEnv (Some (js "envkey")) None None None) 7 None
              (ContentGenerator.mkState
                 (Some (run (reports [js "e"])
                          (fresh "k1" (mkPartialConfig None (Some 1) None))))
                 false)) as [_ H].
  destruct (H (js "envkey") eq_refl eq_refl) as [_ Hm].
  destruct (Hm _ eq_refl) as [Hnone _].
  rewrite Hnone; [reflexivity|]. vm_compute. reflexivity.
Defined.

(** ** The functions together *)

Lemma reportApiKeyError_stored (error : jsstring) (s : ContentGenerator.state)
    (m : ApiKeyManager) :
  ContentGenerator.apiKeyManager s = Some m ->
  ContentGenerator.reportApiKeyError error s
  = (Return tt, ContentGenerator.with_manager (snd (reportError error m)) s).
Proof.
  intros Hm. unfold ContentGenerator.reportApiKeyError, getApiKeyManager. rewrite Hm.
  rewrite reportError_cases. destruct (current_credential m) as [[r k]|]; reflexivity.
Qed.

Lemma reportApiKeyError_mkState (error : jsstring) (m : ApiKeyManager) (flag : bool) :
  ContentGenerator.reportApiKeyError error (ContentGenerator.mkState (Some m) flag)
  = (Return tt, ContentGenerator.mkState (Some (snd (reportError error m))) flag).
Proof. now apply reportApiKeyError_stored. Qed.

Lemma module_getCurrentApiKeyInfo_of (s : ContentGenerator.state) (m : ApiKeyManager)
    (r : nat) (k : ApiKeyInfo) :
  ContentGenerator.apiKeyManager s = Some m ->
  getCurrentApiKeyInfo m = (Return (r, k), m) ->
  ContentGenerator.getCurrentApiKeyInfo s
  = (Return (Some (ContentGenerator.describe (index k) (Z.of_nat (length (apiKeys m)))
                     (masked_as_specified (key k)))), s).
Proof.
  intros Hm Hinfo. unfold ContentGenerator.getCurrentApiKeyInfo, getApiKeyManager.
  rewrite Hm, Hinfo. unfold getTotalKeyCount, read. cbv beta iota.
  rewrite maskApiKey_returns. simpl. now rewrite (with_manager_same s m Hm).
Qed.

Lemma module_rotateApiKey_of (now : Date) (u : Q) (s : ContentGenerator.state)
    (m m' : ApiKeyManager) (newKey : jsstring) :
  ContentGenerator.apiKeyManager s = Some m ->
  (1 < length (apiKeys m))%nat ->
  rotateApiKey now u m = (Return newKey, m') ->
  ContentGenerator.rotateApiKey now u s
  = (Return (ContentGenerator.mkRotation true (Some newKey)
               (Some (ContentGenerator.describe (currentIndex m')
                        (Z.of_nat (length (apiKeys m)))
                        (masked_as_specified newKey)))),
     ContentGenerator.mkState (Some m') true).
Proof.
  intros Hm Hlen Hrot. unfold ContentGenerator.rotateApiKey, getApiKeyManager. rewrite Hm.
  unfold getTotalKeyCount at 1, read. cbv beta iota.
  destruct (Z.leb_spec (Z.of_nat (length (apiKeys m))) 1) as [Hle | _]; [lia|].
  destruct (rotateApiKey_try_cases now u m (ContentGenerator.globalApiKeyRotated s))
    as [(e & Hthrow & _) | (r & k & m1 & _ & Hret & Hci & _ & Htry)].
  - rewrite Hthrow in Hrot. discriminate.
  - rewrite Hret in Hrot. injection Hrot as <- <-. now rewrite Htry, Hci.
Qed.

Lemma first_key_exhausted (raw k1 k2 : jsstring) (rest : list jsstring)
    (e1 e2 e3 : jsstring) :
  segments raw = k1 :: k2 :: rest ->
  exists m0 c c1,
    constructor raw emptyConfig = Return m0
    /\ length (apiKeys (run (reports [e1; e2; e3]) m0)) = (2 + length rest)%nat
    /\ apiKeys (run (reports [e1; e2; e3]) m0) !! 0%nat = Some c
    /\ key c = k1 /\ isActive c = false /\ errorCount c = 3 /\ lastError c = Some e3
    /\ currentIndex (run (reports [e1; e2; e3]) m0) = 0
    /\ length (active_subset (run (reports [e1; e2; e3]) m0)) = (1 + length rest)%nat
    /\ key c1 = k2 /\ index c1 = 1
    /\ getCurrentApiKeyInfo (run (reports [e1; e2; e3]) m0)
       = (Return (1%nat, c1), run (reports [e1; e2; e3]) m0)
    /\ forall now u, exists m',
         rotateApiKey now u (run (reports [e1; e2; e3]) m0) = (Return k2, m')
         /\ currentIndex m' = 1.
Proof.
  intros Hseg.
  assert (Hws : all_whitespace raw = false).
  { destruct (all_whitespace raw) eqn:H; [|reflexivity].
    apply all_whitespace_no_segments in H. congruence. }
  pose proof (constructor_cases raw emptyConfig) as Hcons.
  rewrite Hws, Hseg in Hcons. rewrite <- Hseg in Hcons.
  set (m0 := mkApiKeyManager
               (imap (fun index key => mkApiKeyInfo key (Z.of_nat index) true 0 None None)
                  (segments raw)) 0 (merge_config emptyConfig)) in *.
  destruct (constructor_fresh_table raw emptyConfig m0 Hcons) as (Hidx & Hfresh & _ & _).
  set (c0 := mkApiKeyInfo k1 0 true 0 None None).
  set (c1 := mkApiKeyInfo k2 1 true 0 None None).
  assert (Htab0 : exists tl, apiKeys m0 = c0 :: c1 :: tl /\ length tl = length rest).
  { subst m0. simpl. rewrite Hseg. simpl. eexists. split; [reflexivity|].
    apply length_imap. }
  destruct Htab0 as (tl & Htab0 & Htl).
  assert (Hc0 : current_credential m0 = Some (0%nat, c0)).
  { unfold current_credential, objects. rewrite Htab0. reflexivity. }
  destruct (run_reports [e1; e2; e3] m0 0%nat c0 Hc0)
    as (c & Htab & _ & (Hk & _ & _) & Hcount & Hlast & Hact & Hci & Hcfg).
  set (m3 := run (reports [e1; e2; e3]) m0) in *.
  rewrite Htab0 in Htab. simpl in Htab, Hcount, Hlast, Hact, Hk.
  change (0 + Z.of_nat 3 <? 3) with false in Hact.
  change (0 + Z.of_nat 3) with 3 in Hcount.
  change (currentIndex m0) with 0 in Hci.
  assert (Hactive_tl : Forall (fun k => isActive k = true) tl).
  { rewrite Htab0 in Hfresh. inversion Hfresh as [|? ? _ H1]; subst.
    inversion H1 as [|? ? _ H2]; subst.
    eapply Forall_impl; [exact H2|]. simpl. tauto. }
  assert (Hga : getActiveKeys m3
                = (1%nat, c1) :: List.filter (fun k : objref => isActive (snd k))
                                   (enumerate_from 2 tl)).
  { unfold getActiveKeys, objects. rewrite Htab. simpl. now rewrite Hact. }
  assert (Hno : forall k, In k (getActiveKeys m3) -> index (snd k) <> currentIndex m3).
  { intros [r k] Hin. rewrite Hci. simpl.
    apply In_getActiveKeys in Hin as [Hr Hk']. rewrite Htab in Hr.
    destruct r as [|r]; [simpl in Hr; injection Hr as <-; congruence|].
    assert (Hr0 : apiKeys m0 !! S r = Some k) by (rewrite Htab0; exact Hr).
    rewrite (indexed_lookup m0 (S r) k Hidx Hr0). lia. }
  exists m0, c, c1. change (run (reports [e1; e2; e3]) m0) with m3.
  split; [exact Hcons|].
  split; [rewrite Htab; simpl; lia|]. split; [now rewrite Htab|].
  split; [exact Hk|]. split; [exact Hact|]. split; [exact Hcount|].
  split; [exact Hlast|]. split; [exact Hci|]. split.
  { rewrite <- length_getActiveKeys, Hga. simpl. f_equal.
    rewrite <- (length_map snd), map_snd_filter, map_snd_enumerate_from.
    now rewrite filter_all_true. }
  split; [reflexivity|]. split; [reflexivity|]. split.
  - destruct (getCurrentApiKeyInfo_cases m3) as [[Hnil _] | (r & k & Hf & _ & Heq)].
    + rewrite Hnil in Hga. discriminate.
    + rewrite (fallback_to_first m3 _ Hno), Hga in Hf. simpl in Hf.
      injection Hf as <- <-. exact Heq.
  - intros now u.
    assert (Hs : rotationStrategy (config m3) = round_robin) by now rewrite Hcfg.
    rewrite (rotateApiKey_absent now u m3 1%nat c1 _ Hs Hga Hno).
    eexists. split; reflexivity.
Qed.

(** The functions together, for any raw string with two keys or more and
    the default configuration: once [initializeApiKeyManager] has stored
    the manager and [reportApiKeyError] has been called three times, the
    first key is inactive with error count 3 and the last message, while
    [currentIndex] is still 0; the count of active keys is the total
    minus one; [getCurrentApiKeyInfo()] describes the second key, as
    "API 2/N"; and [rotateApiKey()] rotates to the second key and
    answers with it. *)
Theorem exhausted_first_key_scenario (raw k1 k2 : jsstring) (rest : list jsstring)
    (g0 : module_state) (flag : bool) (e1 e2 e3 : jsstring) (now : Date) (u : Q) :
  segments raw = k1 :: k2 :: rest ->
  exists m0,
    initializeApiKeyManager raw None g0 = (Return m0, Some m0)
    /\ let s3 :=
         snd (ContentGenerator.reportApiKeyError e3
                (snd (ContentGenerator.reportApiKeyError e2
                        (snd (ContentGenerator.reportApiKeyError e1
                                (ContentGenerator.mkState (Some m0) flag)))))) in
       let N := Z.of_nat (2 + length rest) in
       (exists m3 c,
          ContentGenerator.apiKeyManager s3 = Some m3
          /\ ContentGenerator.globalApiKeyRotated s3 = flag
          /\ apiKeys m3 !! 0%nat = Some c
          /\ key c = k1 /\ isActive c = false /\ errorCount c = 3
          /\ lastError c = Some e3
          /\ currentIndex m3 = 0
          /\ fst (getActiveKeyCount m3) = Return (N - 1)
          /\ fst (getTotalKeyCount m3) = Return N)
       /\ fst (ContentGenerator.getCurrentApiKeyInfo s3)
          = Return (Some (ContentGenerator.describe 1 N (masked_as_specified k2)))
       /\ fst (ContentGenerator.rotateApiKey now u s3)
          = Return (ContentGenerator.mkRotation true (Some k2)
                      (Some (ContentGenerator.describe 1 N (masked_as_specified k2)))).
Proof.
  intros Hseg.
  destruct (first_key_exhausted raw k1 k2 rest e1 e2 e3 Hseg)
    as (m0 & c & c1 & Hcons & Hlen & Hc & Hk & Hact & Hcount & Hlast & Hci & Hactive
        & Hk1 & Hi1 & Hinfo & Hrot).
  exists m0. split; [unfold initializeApiKeyManager; simpl default; now rewrite Hcons|].
  set (m3 := run (reports [e1; e2; e3]) m0) in *.
  assert (Hs3 : snd (ContentGenerator.reportApiKeyError e3
                  (snd (ContentGenerator.reportApiKeyError e2
                          (snd (ContentGenerator.reportApiKeyError e1
                                  (ContentGenerator.mkState (Some m0) flag))))))
                = ContentGenerator.mkState (Some m3) flag).
  { rewrite reportApiKeyError_mkState. simpl snd.
    rewrite reportApiKeyError_mkState. simpl snd.
    rewrite reportApiKeyError_mkState. reflexivity. }
  cbv zeta. rewrite Hs3.
  split; [|split].
  - exists m3, c. split; [reflexivity|]. split; [reflexivity|].
    split; [exact Hc|]. split; [exact Hk|]. split; [exact Hact|].
    split; [exact Hcount|]. split; [exact Hlast|]. split; [exact Hci|].
    unfold getActiveKeyCount, getTotalKeyCount, read. simpl fst.
    rewrite length_getActiveKeys, Hactive, Hlen. split; f_equal; lia.
  - rewrite (module_getCurrentApiKeyInfo_of (ContentGenerator.mkState (Some m3) flag)
               m3 1%nat c1 eq_refl Hinfo).
    simpl fst. now rewrite Hlen, Hk1, Hi1.
  - destruct (Hrot now u) as (m' & Hr & Hci').
    rewrite (module_rotateApiKey_of now u (ContentGenerator.mkState (Some m3) flag)
               m3 m' k2 eq_refl); [|rewrite Hlen; lia|exact Hr].
    simpl fst. now rewrite Hlen, Hci'.
Qed.

Lemma exhausted_first_key_scenario_witness :
  fst (ContentGenerator.rotateApiKey 9 (0 # 1)
         (snd (ContentGenerator.reportApiKeyError (js "e3")
                 (snd (ContentGenerator.reportApiKeyError (js "e2")
                         (snd (ContentGenerator.reportApiKeyError (js "e1")
                                 (ContentGenerator.mkState
                                    (Some (fresh "k1;k2;k3" emptyConfig)) false))))))))
  = Return (ContentGenerator.mkRotation true (Some (js "k2"))
              (Some (js "API 2/3 (**)"))).
Proof.
  destruct (exhausted_first_key_scenario (js "k1;k2;k3") (js "k1") (js "k2") [js "k3"]
              None false (js "e1") (js "e2") (js "e3") 9 (0 # 1))
    as (m0 & Hinit & _ & _ & Hrot).
  - vm_compute. reflexivity.
  - assert (Hm0 : m0 = fresh "k1;k2;k3" emptyConfig).
    { vm_compute in Hinit. injection Hinit as <-. vm_compute. reflexivity. }
    rewrite Hm0 in Hrot. rewrite Hrot. vm_compute. reflexivity.
Defined.
